(** * csharg: capture target cache, target completion, pcapng stream editor
      and graceful websocket close

    A shallow embedding of the Go packages [api], [csharg], [pcapng] and
    [websock] of siemens/csharg, followed by the properties proved about
    them.

    Conventions of the embedding.
    - Go [string] fields of targets are [string]; a Go [string] or [[]byte]
      that the code inspects byte by byte (pcapng buffers, option values,
      comment text) is a [list byte].
    - Fixed-width unsigned integers are [Z] with the wrap-around written out
      where the Go code computes in that width.
    - A run-time panic (nil dereference, index or slice bound out of range,
      close of a closed channel) is an explicit outcome, never silently
      turned into a value. *)

From Stdlib Require Import ZArith List String Ascii Bool Lia.
From Stdlib.Strings Require Import Byte.
From stdpp Require Import base option list gmap strings.
Import ListNotations.

Local Open Scope Z_scope.

(* ===================================================================== *)
(** * Package api: the target data model (api/sharktank.go)              *)
(* ===================================================================== *)

Module api.

(** [type Cluster struct]. *)
Record Cluster := { Context : string; UID : string }.

(** [type Target struct]. The field [Type] of the source is [Type_] here,
    [Type] being reserved. [Cluster] is a pointer in the source, [None]
    is the nil pointer. *)
Record Target := {
  Name : string;
  Type_ : string;
  NetNS : Z;
  NetworkInterfaces : list string;
  Prefix : string;
  StartTime : Z;
  Pid : Z;
  NodeName : string;
  Cluster_ : option Cluster;
  CaptureService : string;
  CapturePort : Z
}.

End api.

(* ===================================================================== *)
(** * Package csharg: TargetCache (targetcache.go)                        *)
(* ===================================================================== *)

Module csharg.
Import api.

(** [type targetkey struct]: the key of the target index. *)
Record targetkey := {
  prefix : string;
  name : string;
  nodename : string
}.

#[global] Instance targetkey_eq_dec : EqDecision targetkey.
Proof. solve_decision. Defined.

#[global] Instance targetkey_countable : Countable targetkey.
Proof.
  refine (inj_countable'
            (fun k => (prefix k, name k, nodename k))
            (fun t => {| prefix := t.1.1; name := t.1.2; nodename := t.2 |}) _).
  intros []; reflexivity.
Defined.

Section Cache.
(** [*api.Target] values. The cache and [CompleteTarget] only ever read
    through such a pointer, so the code is embedded over an arbitrary
    type [Ptr] of non-nil target pointers with a [load] function; the
    nil pointer is [None : option Ptr]. *)
Context {Ptr : Type} (load : Ptr -> Target).

(** [type TargetCache struct]. [api.Targets] is [[]*Target]: the lists
    kept in the index can hold nil pointers (see [Set_]), the list
    handed to [Set_] is a list of non-nil pointers. The mutex only
    makes each method atomic and is not represented. *)
Record TargetCache := {
  ts : list Ptr;
  index : gmap targetkey (list (option Ptr))
}.

(** The zero value [TargetCache{}]: nil list, nil map. *)
Definition zero : TargetCache := {| ts := []; index := ∅ |}.

(** [func (tc *TargetCache) IsEmpty() bool]. *)
Definition IsEmpty (tc : TargetCache) : bool :=
  Nat.eqb (length (ts tc)) 0.

(** [func (tc *TargetCache) Targets() api.Targets]. *)
Definition Targets (tc : TargetCache) : list Ptr := ts tc.

(** [func (tc *TargetCache) Pod(name string)], returning a target
    pointer and a found flag: [Some t] is [(t, true)], [None] is
    [(nil, false)]. The source reads
    [ts[0].Type] when [len(ts) == 1]; a nil [ts[0]] would panic there,
    which cannot happen for an index built by [Set_]
    (lemma [Set_index_head]). *)
Definition Pod (tc : TargetCache) (name : string) : option Ptr :=
  match index tc !! {| prefix := EmptyString; name := name; nodename := EmptyString |} with
  | Some ts =>
      match ts with
      | [Some t0] =>
          if String.eqb (Type_ (load t0)) "pod"%string then Some t0 else None
      | _ => None
      end
  | None => None
  end.

(** [func (tc *TargetCache) OnNode(nodename, prefix, name string)],
    returning a target pointer and a found flag. It returns [ts[0]] as
    it is stored, nil or not, when the entry has length 1. *)
Definition OnNode (tc : TargetCache) (nodename prefix name : string)
  : option (option Ptr) :=
  match index tc !! {| prefix := prefix; name := name; nodename := nodename |} with
  | Some ts =>
      match ts with
      | [t0] => Some t0
      | _ => None
      end
  | None => None
  end.

(** The body of the [for _, t := range ts] loop of [Set]. Note that
    [make(api.Targets, cap)] is a slice of LENGTH [cap], filled with
    nil, whose element 0 is then set. *)
Definition Set_body (idx : gmap targetkey (list (option Ptr))) (t : Ptr)
  : gmap targetkey (list (option Ptr)) :=
  let k := {| prefix := Prefix (load t); name := Name (load t); nodename := EmptyString |} in
  let cap := if String.eqb (Type_ (load t)) "pod"%string then 1%nat else 10%nat in
  let idx :=
    match idx !! k with
    | Some ttt => <[k := ttt ++ [Some t]]> idx
    | None => <[k := <[0%nat := Some t]> (replicate cap None)]> idx
    end in
  let k := {| prefix := prefix k; name := name k; nodename := NodeName (load t) |} in
  <[k := [Some t]]> idx.

(** [func (tc *TargetCache) Set(ts api.Targets)]; [Set] is reserved. *)
Definition Set_ (tc : TargetCache) (l : list Ptr) : TargetCache :=
  {| ts := l; index := fold_left Set_body l ∅ |}.

(** [func (tc *TargetCache) Clear()]. *)
Definition Clear (tc : TargetCache) : TargetCache :=
  {| ts := []; index := index tc |}.

End Cache.

(** ** CompleteTarget (sharktank.go) *)

(** [type CaptureOptions struct]. *)
Record CaptureOptions := {
  Nifs : list string;
  Filter : string;
  AvoidPromiscuousMode : bool
}.

(** The heap of [api.Target] structs. A [*api.Target] is an address;
    [new] is what [tshallow := *tcached; t = &tshallow] does: a fresh
    cell holding a copy of the struct. Nothing in the code embedded here
    writes through an existing pointer. *)
Definition addr := nat.

Record Store := {
  cells : addr -> Target;
  next : addr
}.

Definition load (s : Store) (p : addr) : Target := cells s p.

Definition new (s : Store) (v : Target) : Store * addr :=
  ({| cells := fun a => if Nat.eqb a (next s) then v else cells s a;
      next := S (next s) |},
   next s).

(** The three [error] values [CompleteTarget] builds, by the message
    they format: [no capture target specified], [non-existing target
    %+v] and [missing or invalid capture service routing for target
    %+v], the latter two with the target they print. *)
Inductive error :=
| ErrNoTarget
| ErrNonExisting (t : Target)
| ErrInvalidRouting (t : Target).

(** What a call of [CompleteTarget] does: return a pointer and a nil
    error, return nil and an error, or panic on a nil dereference. *)
Inductive outcome :=
| Returned (t : addr)
| Failed (e : error)
| Panicked.

(** [strings.ContainsAny(s, chars)] for [chars] made of ASCII
    characters, where a character of [chars] occurs in [s] exactly when
    its byte does. *)
Definition ContainsAny (s chars : string) : bool :=
  existsb (fun c => existsb (Ascii.eqb c) (list_ascii_of_string chars))
          (list_ascii_of_string s).

(** The tail of [CompleteTarget], after [t] has been settled. *)
Definition check_routing (s : Store) (t : addr) : Store * outcome :=
  if ContainsAny (CaptureService (load s t)) "/?%" then
    (s, Failed (ErrInvalidRouting (load s t)))
  else (s, Returned t).

(** [func CompleteTarget(t *api.Target, opts *CaptureOptions,
    ts *TargetCache)]. *)
Definition CompleteTarget (s : Store) (t : option addr)
    (opts : option CaptureOptions) (tc : TargetCache (Ptr := addr))
  : Store * outcome :=
  match t with
  | None => (s, Failed ErrNoTarget)
  | Some t =>
      if String.eqb (CaptureService (load s t)) EmptyString then
        if String.eqb (Type_ (load s t)) "pod" then
          match Pod (load s) tc (Name (load s t)) with
          | None => (s, Failed (ErrNonExisting (load s t)))
          | Some tcached =>
              let (s', tshallow) := new s (load s tcached) in
              check_routing s' tshallow
          end
        else
          match OnNode tc (NodeName (load s t)) (Prefix (load s t))
                       (Name (load s t)) with
          | None => (s, Failed (ErrNonExisting (load s t)))
          | Some None => (s, Panicked)
          | Some (Some tcached) =>
              let (s', tshallow) := new s (load s tcached) in
              check_routing s' tshallow
          end
      else check_routing s t
  end.

End csharg.

(* ===================================================================== *)
(** * Package pcapng: options and the stream editor (pcapng.go)           *)
(* ===================================================================== *)

Module pcapng.
Import api.

(** ** Outcomes of Go code that can panic *)

(** The run-time panics of the embedded code. [IndexRange] is an index
    expression [b[i]] with [i >= len(b)] and [NilDeref] a method call on
    a nil interface: the model raises them exactly when Go does.
    [SliceRange] is a slice expression [b[lo:hi]] out of range. Go checks
    [hi] against the capacity of [b]; for slices obtained from [make] the
    capacity is the length and the model is exact, for the editor's
    [append]-grown buffer the capacity is the allocator's choice and the
    model takes the length, so there a [SliceRange] of the model is a
    read past the buffered octets and a panic once past the capacity. *)
Inductive panic := NilDeref | IndexRange | SliceRange.

Inductive result (A : Type) :=
| Ret (a : A)
| Panic (p : panic)
| OutOfFuel.
Arguments Ret {A} a.
Arguments Panic {A} p.
Arguments OutOfFuel {A}.

#[global] Instance result_ret : MRet result := @Ret.
#[global] Instance result_bind : MBind result :=
  fun A B f m =>
    match m with
    | Ret a => f a
    | Panic p => Panic p
    | OutOfFuel => OutOfFuel
    end.

(** ** Octets and [encoding/binary] *)

Definition Z_of_byte (b : byte) : Z := Z.of_N (Byte.to_N b).

(** The Go conversion [byte(v)] of an unsigned integer: the low 8 bits. *)
Definition byte_of_Z (v : Z) : byte :=
  match Byte.of_N (Z.to_N (v mod 256)) with
  | Some b => b
  | None => x00
  end.

(** [b[lo:hi]] and [b[lo:]]. *)
Definition slice (b : list byte) (lo hi : nat) : result (list byte) :=
  if (lo <=? hi)%nat && (hi <=? length b)%nat
  then Ret (take (hi - lo) (drop lo b))
  else Panic SliceRange.

Definition slice_from (b : list byte) (lo : nat) : result (list byte) :=
  if (lo <=? length b)%nat then Ret (drop lo b) else Panic SliceRange.

(** A write through the sub-slice [b[lo:hi]]: [f] gets the sub-slice and
    returns it as written, and the octets land in [b]. *)
Definition update_slice (b : list byte) (lo hi : nat)
    (f : list byte -> result (list byte)) : result (list byte) :=
  sub ← slice b lo hi;
  sub' ← f sub;
  Ret (take lo b ++ sub' ++ drop hi b).

(** The builtin [copy(dst, src)], as the new contents of [dst]. *)
Definition copy (dst src : list byte) : list byte :=
  take (length dst) src ++ drop (length src) dst.

(** [binary.ByteOrder], with its two implementations. *)
Inductive ByteOrder := BigEndian | LittleEndian.

(** The octets of [v], least significant first. *)
Fixpoint le_bytes (n : nat) (v : Z) : list byte :=
  match n with
  | O => []
  | S n' => byte_of_Z v :: le_bytes n' (Z.shiftr v 8)
  end.

(** The unsigned integer of octets given least significant first. *)
Fixpoint le_value (b : list byte) : Z :=
  match b with
  | [] => 0
  | x :: b' => Z.lor (Z_of_byte x) (Z.shiftl (le_value b') 8)
  end.

(** [Uint16], [Uint32], [Uint64] read the first [n] = 2, 4, 8 octets of
    [b], after the bounds check [_ = b[n-1]]. *)
Definition UintN (n : nat) (e : ByteOrder) (b : list byte) : result Z :=
  if (n <=? length b)%nat then
    match e with
    | LittleEndian => Ret (le_value (take n b))
    | BigEndian => Ret (le_value (rev (take n b)))
    end
  else Panic IndexRange.

Definition Uint16 := UintN 2.
Definition Uint32 := UintN 4.
Definition Uint64 := UintN 8.

(** [PutUint16], [PutUint32], [PutUint64] overwrite the first [n] octets
    of [b] after the same bounds check; the result is [b] as written. *)
Definition PutUintN (n : nat) (e : ByteOrder) (b : list byte) (v : Z)
  : result (list byte) :=
  if (n <=? length b)%nat then
    match e with
    | LittleEndian => Ret (le_bytes n v ++ drop n b)
    | BigEndian => Ret (rev (le_bytes n v) ++ drop n b)
    end
  else Panic IndexRange.

Definition PutUint16 := PutUintN 2.
Definition PutUint32 := PutUintN 4.
Definition PutUint64 := PutUintN 8.

(** ** Options *)

(** [type Option struct]; [Code] is a [uint16]. *)
Record Option := {
  Code : Z;
  Value : list byte
}.

Definition OptEndofOpt : Z := 0.
Definition OptComment : Z := 1.
Definition OptSHBHardware : Z := 2.
Definition OptSHBOS : Z := 3.
Definition OptSHBUserAppl : Z := 4.

(** [func NewOption(buff []byte, endian binary.ByteOrder)], returning the
    option ([None] is the nil pointer) and the number of octets to skip.
    [skip] is a [uint], in which [4 + length] cannot wrap; the upper
    bound [4+length] of the value's slice expression is a [uint16] and
    wraps at 65536. *)
Definition NewOption (buff : list byte) (endian : ByteOrder)
  : result (option Option * Z) :=
  code ← Uint16 endian buff;
  b24 ← slice buff 2 4;
  length ← Uint16 endian b24;
  let skip := 2 + 2 + length in
  let skip :=
    if negb (Z.land skip 3 =? 0) then skip + (4 - Z.land skip 3) else skip in
  if negb (code =? OptEndofOpt) || negb (length =? 0) then
    v ← slice buff 4 (Z.to_nat ((4 + length) mod 65536));
    Ret (Some {| Code := code; Value := v |}, skip)
  else Ret (None, skip).

(** [func (o *Option) String() string]. *)
Definition String (o : Option) : list byte := Value o.

(** [func (o *Option) Bytes(endian binary.ByteOrder) (b []byte)]; [None]
    is the nil receiver. [length] and the size handed to [make] are
    [uint16] and wrap at 65536. *)
Definition Bytes (o : option Option) (endian : ByteOrder)
  : result (list byte) :=
  match o with
  | None => Ret [x00; x00; x00; x00]
  | Some o =>
      let value := Value o in
      let length := Z.of_nat (length value) mod 65536 in
      let b := replicate (Z.to_nat ((2 + 2 + length) mod 65536)) x00 in
      b ← update_slice b 0 2 (fun s => PutUint16 endian s (Code o));
      b ← update_slice b 2 4 (fun s => PutUint16 endian s length);
      sub ← slice_from b 4;
      let b := take 4 b ++ copy sub value in
      if negb (Z.land length 3 =? 0) then
        Ret (b ++ replicate (Z.to_nat (4 - Z.land length 3)) x00)
      else Ret b
  end.

(** ** The stream editor *)

(** [bytes.Equal]. *)
Fixpoint bytes_Equal (a b : list byte) : bool :=
  match a, b with
  | [], [] => true
  | x :: a', y :: b' => Byte.eqb x y && bytes_Equal a' b'
  | _, _ => false
  end.

(** [strings.HasPrefix(s, p)] on the octets of a string. *)
Fixpoint HasPrefix (s p : list byte) : bool :=
  match p, s with
  | [], _ => true
  | y :: p', x :: s' => Byte.eqb x y && HasPrefix s' p'
  | _ :: _, [] => false
  end.

(** [strings.HasSuffix(s, p)]. *)
Definition HasSuffix (s p : list byte) : bool :=
  (length p <=? length s)%nat && bytes_Equal (drop (length s - length p) s) p.

Definition nl : byte := x0a.

(** [const targetmarker]: three dashes, a newline, the line
    [# capture target information] and a newline. *)
Definition targetmarker : list byte :=
  list_byte_of_string "---" ++ [nl]
    ++ list_byte_of_string "# capture target information" ++ [nl].

(** [markerstart.FindStringIndex(s)] for the regular expression
    [(?s)(^|\n)] followed by [targetmarker]. Without the [m] flag [^] is
    the beginning of the text only. Go returns the leftmost match: the
    marker at offset 0, or else the first newline that the marker
    follows. The result is the pair [loc[0], loc[1]], or [None] for the
    nil slice. *)
Fixpoint markerstart_scan (i : nat) (s : list byte) : option (nat * nat) :=
  match s with
  | [] => None
  | c :: s' =>
      if Byte.eqb c nl && HasPrefix s' targetmarker
      then Some (i, i + 1 + length targetmarker)%nat
      else markerstart_scan (S i) s'
  end.

Definition markerstart (s : list byte) : option (nat * nat) :=
  if HasPrefix s targetmarker then Some (0%nat, length targetmarker)
  else markerstart_scan 0 s.

(** [markerend.FindStringIndex(s)] for [(?s)\n---($|\n)]: the first
    newline followed by three dashes and then the end of the text or a
    newline. *)
Fixpoint markerend_scan (i : nat) (s : list byte) : option (nat * nat) :=
  match s with
  | [] => None
  | c :: s' =>
      if Byte.eqb c nl && HasPrefix s' (list_byte_of_string "---") then
        match drop 3 s' with
        | [] => Some (i, i + 4)%nat
        | d :: _ =>
            if Byte.eqb d nl then Some (i, i + 5)%nat
            else markerend_scan (S i) s'
        end
      else markerend_scan (S i) s'
  end.

Definition markerend (s : list byte) : option (nat * nat) :=
  markerend_scan 0 s.

(** The [if start := markerstart.FindStringIndex(comment); ...] block of
    [processSHB]: the comment with the old target information cut out.
    [comment[start[0]]] is always in range when there is a match. *)
Definition cut_target_info (comment : list byte) : list byte :=
  match markerstart comment with
  | Some (start0, start1) =>
      let start0 :=
        match comment !! start0 with
        | Some c => if Byte.eqb c nl then S start0 else start0
        | None => start0
        end in
      match markerend (drop start1 comment) with
      | Some (end0, _) => take start0 comment ++ drop (start0 + end0) comment
      | None => take start0 comment
      end
  | None => comment
  end.

(** [type ClusterInfo struct] and [type ContainerInfo struct]. *)
Record ClusterInfo := {
  ci_UID : string
}.

Record ContainerInfo := {
  ContainerName : string;
  ContainerType : string;
  ci_NodeName : string;
  ci_ClusterInfo : option ClusterInfo;
  CaptureFilter : string;
  NoProm : bool
}.

(** [io.Writer]: the sink, as a state and a [Write] method returning the
    new state, the count and the error ([None] is nil). *)
Class Writer (W : Type) := sink_Write : W -> list byte -> W * (Z * option string).

(** [bytes.Buffer], the sink of the package tests: [Write] appends and
    never fails. *)
#[global] Instance Buffer_Writer : Writer (list byte) :=
  fun buf b => (buf ++ b, (Z.of_nat (length b), None)).

Section Editor.
(** [yaml.Marshal] on a [ContainerInfo], from gopkg.in/yaml.v3: the
    octets of the document, or [None] for an error. *)
Variable yaml_Marshal : ContainerInfo -> option (list byte).
Context {W : Type} `{Writer W}.

(** [type StreamEditor struct]. [Endian] is an interface value, [None]
    is nil. [container] is never nil after [NewStreamEditor] and only
    read, so the struct is kept by value. *)
Record StreamEditor := {
  Endian : option ByteOrder;
  sink : W;
  passThrough : bool;
  shb : list byte;
  shbLen : Z;
  container : Target;
  captureFilter : string;
  noProm : bool
}.

Definition set_sink (pe : StreamEditor) (w : W) : StreamEditor :=
  {| Endian := Endian pe; sink := w; passThrough := passThrough pe;
     shb := shb pe; shbLen := shbLen pe; container := container pe;
     captureFilter := captureFilter pe; noProm := noProm pe |}.

Definition set_shb (pe : StreamEditor) (b : list byte) : StreamEditor :=
  {| Endian := Endian pe; sink := sink pe; passThrough := passThrough pe;
     shb := b; shbLen := shbLen pe; container := container pe;
     captureFilter := captureFilter pe; noProm := noProm pe |}.

Definition set_passThrough (pe : StreamEditor) (f : bool) : StreamEditor :=
  {| Endian := Endian pe; sink := sink pe; passThrough := f;
     shb := shb pe; shbLen := shbLen pe; container := container pe;
     captureFilter := captureFilter pe; noProm := noProm pe |}.

Definition set_framing (pe : StreamEditor) (e : ByteOrder) (n : Z)
  : StreamEditor :=
  {| Endian := Some e; sink := sink pe; passThrough := passThrough pe;
     shb := shb pe; shbLen := n; container := container pe;
     captureFilter := captureFilter pe; noProm := noProm pe |}.

(** The zero [api.Target{}]. *)
Definition zero_Target : Target :=
  {| Name := EmptyString; Type_ := EmptyString; NetNS := 0; NetworkInterfaces := [];
     Prefix := EmptyString; StartTime := 0; Pid := 0; NodeName := EmptyString;
     Cluster_ := None; CaptureService := EmptyString; CapturePort := 0 |}.

(** [func NewStreamEditor(sink io.Writer, container *api.Target,
    captureFilter string, noProm bool) *StreamEditor]. *)
Definition NewStreamEditor (sink : W) (container : option Target)
    (captureFilter : string) (noProm : bool) : StreamEditor :=
  {| Endian := None; sink := sink; passThrough := false; shb := [];
     shbLen := 0;
     container := match container with Some t => t | None => zero_Target end;
     captureFilter := captureFilter; noProm := noProm |}.

(** [func (pe *StreamEditor) shbLenEndianness() bool]. *)
Definition shbLenEndianness (pe : StreamEditor)
  : result (bool * StreamEditor) :=
  s04 ← slice (shb pe) 0 4;
  if negb (bytes_Equal s04 [x0a; x0d; x0d; x0a]) then Ret (false, pe)
  else
    s812 ← slice (shb pe) 8 12;
    let e := if bytes_Equal s812 [x1a; x2b; x3c; x4d]
             then BigEndian else LittleEndian in
    s48 ← slice (shb pe) 4 8;
    n ← Uint32 e s48;
    Ret (true, set_framing pe e n).

(** The option loop of [processSHB],
    [for offset < pe.shbLen-4 { ... }], run for at most [fuel]
    iterations. [offset] and [pe.shbLen-4] are [uint32]. It yields
    [options] and [firstComment]. *)
Fixpoint parse_options (fuel : nat) (buf : list byte) (len : Z)
    (e : ByteOrder) (offset : Z) (options : list Option)
    (firstComment : option Option)
  : result (list Option * option Option) :=
  if negb (offset <? (len - 4) mod 2 ^ 32) then Ret (options, firstComment)
  else
    match fuel with
    | O => OutOfFuel
    | S fuel' =>
        buff ← slice_from buf (Z.to_nat offset);
        r ← NewOption buff e;
        let offset := (offset + r.2 mod 2 ^ 32) mod 2 ^ 32 in
        match r.1 with
        | None => Ret (options, firstComment)
        | Some opt =>
            if (Code opt =? OptComment)
               && match firstComment with None => true | Some _ => false end
            then parse_options fuel' buf len e offset options (Some opt)
            else parse_options fuel' buf len e offset (options ++ [opt])
                               firstComment
        end
    end.

(** [for _, opt := range options { shbOpts = append(shbOpts,
    opt.Bytes(pe.Endian)...) }]. *)
Fixpoint encode_options (e : ByteOrder) (shbOpts : list byte)
    (options : list Option) : result (list byte) :=
  match options with
  | [] => Ret shbOpts
  | opt :: options' =>
      b ← Bytes (Some opt) e;
      encode_options e (shbOpts ++ b) options'
  end.

(** The comment text [processSHB] builds from [firstComment]. *)
Definition new_comment (pe : StreamEditor) (firstComment : option Option)
  : list byte :=
  let comment :=
    match firstComment with
    | Some fc => cut_target_info (String fc)
    | None => []
    end in
  let comment :=
    if negb (bytes_Equal comment []) && negb (HasSuffix comment [nl])
    then comment ++ [nl] else comment in
  let comment := comment ++ targetmarker in
  let ci :=
    {| ContainerName := Name (container pe);
       ContainerType := Type_ (container pe);
       ci_NodeName := NodeName (container pe);
       ci_ClusterInfo :=
         match Cluster_ (container pe) with
         | Some cluster => Some {| ci_UID := UID cluster |}
         | None => None
         end;
       CaptureFilter := captureFilter pe;
       NoProm := noProm pe |} in
  match yaml_Marshal ci with
  | Some y => comment ++ y
  | None => comment
  end.

(** [func (pe *StreamEditor) processSHB() []byte]. The loop gets one
    unit of fuel per buffered octet, which it cannot exhaust on a
    buffer shorter than 2^32 - 2^17 octets (lemma
    [parse_options_fuel]). *)
Definition processSHB (pe : StreamEditor)
  : result (list byte * StreamEditor) :=
  match Endian pe with
  | None => Panic NilDeref
  | Some e =>
      s ← slice (shb pe) 12 14;
      major ← Uint16 e s;
      s ← slice (shb pe) 14 16;
      minor ← Uint16 e s;
      s ← slice (shb pe) 16 24;
      sectionLen ← Uint64 e s;
      r ← parse_options (length (shb pe)) (shb pe) (shbLen pe) e 24 [] None;
      let comment := new_comment pe r.2 in
      let options := {| Code := OptComment; Value := comment |} :: r.1 in
      shbOpts ← encode_options e [] options;
      let shbLen' := (4 + 4 + 4 + 2 + 2 + 8 + length shbOpts + 4)%nat in
      let b := replicate shbLen' x00 in
      b ← update_slice b 0 4 (fun s => PutUint32 e s 0x0a0d0d0a);
      b ← update_slice b 4 8
            (fun s => PutUint32 e s (Z.of_nat shbLen' mod 2 ^ 32));
      b ← update_slice b 8 12 (fun s => PutUint32 e s 0x1a2b3c4d);
      b ← update_slice b 12 14 (fun s => PutUint16 e s major);
      b ← update_slice b 14 16 (fun s => PutUint16 e s minor);
      b ← update_slice b 16 24 (fun s => PutUint64 e s (2 ^ 64 - 1));
      sub ← slice_from b 24;
      let b := take 24 b ++ copy sub shbOpts in
      b ← update_slice b (shbLen' - 4) shbLen'
            (fun s => PutUint32 e s (Z.of_nat shbLen' mod 2 ^ 32));
      rest ← slice_from (shb pe) (Z.to_nat (shbLen pe));
      Ret (b ++ rest, set_shb (set_passThrough pe true) [])
  end.

(** [func (pe *StreamEditor) process(b []byte) []byte]. *)
Definition process (pe : StreamEditor) (b : list byte)
  : result (list byte * StreamEditor) :=
  if passThrough pe then Ret (b, pe)
  else
    let pe := set_shb pe (shb pe ++ b) in
    r ← (if (shbLen pe =? 0) && (12 <=? length (shb pe))%nat then
           r ← shbLenEndianness pe;
           if negb r.1 then
             Ret (Some (shb r.2), set_shb (set_passThrough r.2 true) [])
           else Ret (None, r.2)
         else Ret (None, pe));
    match r.1 with
    | Some pc => Ret (pc, r.2)
    | None =>
        let pe := r.2 in
        if negb (shbLen pe =? 0)
           && (shbLen pe <=? Z.of_nat (length (shb pe)) mod 2 ^ 32)
        then processSHB pe
        else Ret ([], pe)
    end.

(** [func (pe *StreamEditor) Write(b []byte) (n int, err error)]. *)
Definition Write (pe : StreamEditor) (b : list byte)
  : result ((Z * option string) * StreamEditor) :=
  let n := Z.of_nat (length b) in
  r ← process pe b;
  let w := sink_Write (sink r.2) r.1 in
  let pe := set_sink r.2 w.1 in
  match w.2.2 with
  | Some err => Ret ((n, Some err), pe)
  | None => Ret ((n, None), pe)
  end.

End Editor.

End pcapng.

(* ===================================================================== *)
(** * Package websock: graceful close (websock.go)                        *)
(* ===================================================================== *)

Module websock.

(** [Read] and [Close] run in different goroutines and share the
    [ReadingClientWebsocket]. Each method is cut into its atomic steps,
    one program point per statement that touches the shared state, and a
    schedule picks the goroutine that takes the next step. *)

(** What [ws.Conn.ReadMessage()] returns: a data frame, a
    [*websocket.CloseError] with the code and text of the peer, or
    another error. *)
Inductive read_result :=
| BinaryMessage (data : list byte)
| TextMessage (data : list byte)
| CloseError (code : Z) (text : string)
| OtherError.

(** What [Read] returns. *)
Inductive read_return :=
| Data (data : list byte)
| ErrUnexpectedText
| ErrClose (code : Z) (text : string)
| ErrOther.

(** Program points. *)
Inductive pc :=
(* Close *)
| Close_Lock                (* ws.m.Lock() *)
| Close_locked              (* if !ws.Closing { ... }, deferred Unlock *)
| Close_select              (* select { ... } *)
| Close_timeout_Conn_Close  (* case <-time.After: ws.Conn.Close() *)
| Close_timeout_close       (*                    close(ws.closed) *)
| Close_returned
(* Read *)
| Read_ReadMessage          (* ws.Conn.ReadMessage() *)
| Read_Lock (code : Z) (text : string)        (* ws.m.Lock() *)
| Read_locked (code : Z) (text : string)      (* if !ws.Closing { ... } *)
| Read_Conn_Close (code : Z) (text : string)  (* ws.Conn.Close() *)
| Read_close (code : Z) (text : string)       (* close(ws.closed) *)
| Read_return (code : Z) (text : string)      (* return nil, cerr; Unlock *)
| Read_returned (r : read_return).

(** [type ReadingClientWebsocket struct], with the transport reduced to
    whether it is open and the close control frames written to it, and
    the goroutines that are inside [Read] or [Close]. [closed] is the
    channel: [true] once it has been closed. [crashed] is the run-time
    panic [close of closed channel]. *)
Record ReadingClientWebsocket := {
  Closing : bool;
  m : bool;
  closed : bool;
  Conn_open : bool;
  Conn_written : nat;
  goroutines : list pc;
  crashed : bool
}.

(** [func New(ws *websocket.Conn) *ReadingClientWebsocket], with the
    goroutines about to run. *)
Definition New (gs : list pc) : ReadingClientWebsocket :=
  {| Closing := false; m := false; closed := false; Conn_open := true;
     Conn_written := 0; goroutines := gs; crashed := false |}.

(** A scheduling decision: goroutine [i] takes its next step. In
    [Read_ReadMessage] the step needs what the transport delivers, and in
    [Close_select] which case of the [select] is taken. *)
Inductive event :=
| Step (i : nat)
| Deliver (i : nat) (r : read_result)
| Timeout (i : nat)
| Signalled (i : nat).

Definition set_pc (ws : ReadingClientWebsocket) (i : nat) (p : pc)
  : ReadingClientWebsocket :=
  {| Closing := Closing ws; m := m ws; closed := closed ws;
     Conn_open := Conn_open ws; Conn_written := Conn_written ws;
     goroutines := <[i := p]> (goroutines ws); crashed := crashed ws |}.

(** [ws.m.Lock()] and [ws.m.Unlock()]. *)
Definition set_m (ws : ReadingClientWebsocket) (b : bool)
  : ReadingClientWebsocket :=
  {| Closing := Closing ws; m := b; closed := closed ws;
     Conn_open := Conn_open ws; Conn_written := Conn_written ws;
     goroutines := goroutines ws; crashed := crashed ws |}.

(** [if !ws.Closing { ws.Closing = true; ws.Conn.WriteMessage(
    websocket.CloseMessage, ...) }]. *)
Definition start_closing (ws : ReadingClientWebsocket)
  : ReadingClientWebsocket :=
  if Closing ws then ws
  else {| Closing := true; m := m ws; closed := closed ws;
          Conn_open := Conn_open ws; Conn_written := S (Conn_written ws);
          goroutines := goroutines ws; crashed := crashed ws |}.

(** [ws.Conn.Close()]. *)
Definition Conn_Close (ws : ReadingClientWebsocket)
  : ReadingClientWebsocket :=
  {| Closing := Closing ws; m := m ws; closed := closed ws;
     Conn_open := false; Conn_written := Conn_written ws;
     goroutines := goroutines ws; crashed := crashed ws |}.

(** [close(ws.closed)]: closing a closed channel panics. *)
Definition close_closed (ws : ReadingClientWebsocket)
  : ReadingClientWebsocket :=
  {| Closing := Closing ws; m := m ws; closed := true;
     Conn_open := Conn_open ws; Conn_written := Conn_written ws;
     goroutines := goroutines ws;
     crashed := crashed ws || closed ws |}.

(** One step of the system; [None] when the event is not enabled: the
    goroutine does not exist, is blocked on the mutex or on the
    [select], has returned, the process has crashed, or the event does
    not fit the program point. A closed transport delivers no frame. *)
Definition step (ws : ReadingClientWebsocket) (e : event)
  : option ReadingClientWebsocket :=
  if crashed ws then None
  else
    match e with
    | Step i =>
        match goroutines ws !! i with
        | Some Close_Lock =>
            if m ws then None else Some (set_pc (set_m ws true) i Close_locked)
        | Some Close_locked =>
            Some (set_pc (set_m (start_closing ws) false) i Close_select)
        | Some Close_timeout_Conn_Close =>
            Some (set_pc (Conn_Close ws) i Close_timeout_close)
        | Some Close_timeout_close =>
            Some (set_pc (close_closed ws) i Close_returned)
        | Some (Read_Lock c t) =>
            if m ws then None else Some (set_pc (set_m ws true) i (Read_locked c t))
        | Some (Read_locked c t) =>
            Some (set_pc (start_closing ws) i (Read_Conn_Close c t))
        | Some (Read_Conn_Close c t) =>
            Some (set_pc (Conn_Close ws) i (Read_close c t))
        | Some (Read_close c t) =>
            Some (set_pc (close_closed ws) i (Read_return c t))
        | Some (Read_return c t) =>
            Some (set_pc (set_m ws false) i (Read_returned (ErrClose c t)))
        | _ => None
        end
    | Deliver i r =>
        match goroutines ws !! i with
        | Some Read_ReadMessage =>
            match r with
            | BinaryMessage d =>
                if Conn_open ws then Some (set_pc ws i (Read_returned (Data d)))
                else None
            | TextMessage _ =>
                if Conn_open ws
                then Some (set_pc ws i (Read_returned ErrUnexpectedText))
                else None
            | CloseError c t =>
                if Conn_open ws then Some (set_pc ws i (Read_Lock c t))
                else None
            | OtherError => Some (set_pc ws i (Read_returned ErrOther))
            end
        | _ => None
        end
    | Timeout i =>
        match goroutines ws !! i with
        | Some Close_select => Some (set_pc ws i Close_timeout_Conn_Close)
        | _ => None
        end
    | Signalled i =>
        match goroutines ws !! i with
        | Some Close_select =>
            if closed ws then Some (set_pc ws i Close_returned) else None
        | _ => None
        end
    end.

(** A schedule, run from a state. *)
Fixpoint run (ws : ReadingClientWebsocket) (es : list event)
  : option ReadingClientWebsocket :=
  match es with
  | [] => Some ws
  | e :: es' =>
      match step ws e with
      | Some ws' => run ws' es'
      | None => None
      end
  end.

End websock.

(* ===================================================================== *)
(** * Properties of the target cache                                      *)
(* ===================================================================== *)

Section TargetCacheFacts.
Import api csharg.
Context {Ptr : Type} (load : Ptr -> Target).

Implicit Types (l : list Ptr) (idx : gmap targetkey (list (option Ptr))).

(** The key [Pod] looks up. *)
Definition pod_key (x : string) : targetkey :=
  {| prefix := EmptyString; name := x; nodename := EmptyString |}.

(** A target is a candidate for [Pod x] when it has the name [x] and no
    prefix. *)
Definition is_candidate (x : string) (t : Ptr) : bool :=
  String.eqb (Prefix (load t)) EmptyString && String.eqb (Name (load t)) x.

(** The slice [Set_] files under a (prefix, name) key for the targets
    [cands] that share it, in the order of the list: [make] with the
    capacity of the first one as LENGTH, then the appended rest. *)
Definition entry_of (cands : list Ptr) : option (list (option Ptr)) :=
  match cands with
  | [] => None
  | t0 :: rest =>
      Some (<[0%nat := Some t0]>
              (replicate (if String.eqb (Type_ (load t0)) "pod"
                          then 1%nat else 10%nat) None)
            ++ map Some rest)
  end.

Definition extend_entry (o : option (list (option Ptr))) (cands : list Ptr)
  : option (list (option Ptr)) :=
  match o with
  | Some v => Some (v ++ map Some cands)
  | None => entry_of cands
  end.

Lemma Set_body_candidate idx t x :
  is_candidate x t = true ->
  NodeName (load t) <> EmptyString ->
  Set_body load idx t !! pod_key x = extend_entry (idx !! pod_key x) [t].
Proof.
  intros Hc Hn. unfold is_candidate in Hc.
  apply andb_prop in Hc as [Hp Hx].
  apply String.eqb_eq in Hp, Hx.
  unfold Set_body. cbn [prefix name nodename]. rewrite Hp, Hx.
  fold (pod_key x).
  rewrite lookup_insert_ne.
  2:{ unfold pod_key. intros E. inversion E. congruence. }
  destruct (idx !! pod_key x) as [v|] eqn:E; cbn.
  - by rewrite lookup_insert_eq.
  - rewrite lookup_insert_eq. by rewrite app_nil_r.
Qed.

Lemma Set_body_other idx t x :
  is_candidate x t = false ->
  Set_body load idx t !! pod_key x = idx !! pod_key x.
Proof.
  intros Hc. unfold Set_body. cbn [prefix name nodename].
  assert (Hne : forall n,
    {| prefix := Prefix (load t); name := Name (load t); nodename := n |}
    <> pod_key x).
  { intros n E. unfold pod_key in E. inversion E as [[Hp Hx Hn]].
    unfold is_candidate in Hc. rewrite Hp, Hx in Hc.
    rewrite !String.eqb_refl in Hc. discriminate. }
  rewrite lookup_insert_ne by apply Hne.
  destruct (idx !! _); by rewrite lookup_insert_ne by apply Hne.
Qed.

Lemma extend_entry_cons o t cands :
  extend_entry (extend_entry o [t]) cands = extend_entry o (t :: cands).
Proof.
  destruct o as [v|]; cbn.
  - by rewrite <- app_assoc.
  - by rewrite app_nil_r.
Qed.

(** The invariant of the loop of [Set_], at the key of [Pod x]. *)
Lemma Set_loop_pod_key x l : forall idx,
  (forall t, In t l -> is_candidate x t = true ->
             NodeName (load t) <> EmptyString) ->
  fold_left (Set_body load) l idx !! pod_key x
  = extend_entry (idx !! pod_key x) (List.filter (is_candidate x) l).
Proof.
  induction l as [|t l IH]; intros idx Hl; cbn [fold_left List.filter].
  - destruct (idx !! pod_key x); cbn; [by rewrite app_nil_r | done].
  - rewrite IH by (intros; apply Hl; [by right | done]).
    destruct (is_candidate x t) eqn:Hc.
    + rewrite Set_body_candidate by (try apply Hl; first [by left | done]).
      apply extend_entry_cons.
    + by rewrite Set_body_other.
Qed.

(** Every slice in an index built by [Set_] starts with a non-nil
    pointer: [Pod] never dereferences nil. *)
Lemma Set_index_head l : forall idx,
  (forall k v, idx !! k = Some v -> exists t v', v = Some t :: v') ->
  forall k v, fold_left (Set_body load) l idx !! k = Some v ->
              exists t v', v = Some t :: v'.
Proof.
  induction l as [|t l IH]; intros idx Hidx; cbn [fold_left]; [exact Hidx|].
  apply IH. intros k v. unfold Set_body.
  intros Hk. apply lookup_insert_Some in Hk as [[_ <-]|[_ Hk]]; [by eauto|].
  destruct (idx !! _) as [w|] eqn:E.
  - apply lookup_insert_Some in Hk as [[_ <-]|[_ Hk]]; [|by eauto].
    destruct (Hidx _ _ E) as (t' & w' & ->). by eauto.
  - apply lookup_insert_Some in Hk as [[_ <-]|[_ Hk]]; [|by eauto].
    destruct (String.eqb _ _); cbn; by eauto.
Qed.

(** C9. [Clear] replaces the target list by an empty one and leaves the
    index alone: after [Set_] and [Clear] the cache reports empty, while
    [Pod] and [OnNode] answer exactly as before the [Clear]. *)
Theorem Clear_keeps_index (tc0 : TargetCache) l :
  let tc := Set_ load tc0 l in
  IsEmpty (Clear tc) = true
  /\ index (Clear tc) = index tc
  /\ (forall x, Pod load (Clear tc) x = Pod load tc x)
  /\ (forall n p x, OnNode (Clear tc) n p x = OnNode tc n p x).
Proof. cbn. repeat split. Qed.

(** C5, as the code has it. When no target named [x] without prefix has
    an empty node name, [Pod x] on a cache built by [Set_] finds a target
    exactly when the list holds one single target with name [x] and an
    empty prefix and that target is of type pod, and then returns it;
    targets with the same name under another prefix do not count. *)
Theorem Pod_after_Set (tc0 : TargetCache) l x :
  (forall t, In t l -> is_candidate x t = true ->
             NodeName (load t) <> EmptyString) ->
  Pod load (Set_ load tc0 l) x =
    match List.filter (is_candidate x) l with
    | [t] => if String.eqb (Type_ (load t)) "pod" then Some t else None
    | _ => None
    end.
Proof.
  intros Hl. unfold Pod, Set_. cbn [index]. fold (pod_key x).
  rewrite Set_loop_pod_key by exact Hl.
  rewrite lookup_empty. cbn [extend_entry].
  destruct (List.filter (is_candidate x) l) as [|t0 [|t1 rest]]; cbn; [done| |].
  - destruct (String.eqb (Type_ (load t0)) "pod") eqn:E; cbn; [by rewrite E|done].
  - destruct (String.eqb (Type_ (load t0)) "pod"); cbn; done.
Qed.

End TargetCacheFacts.

(** Two targets on node n1 that share the name web: a pod without prefix
    and a container of a nested engine under the prefix dind. Pointers are
    the structs themselves here. *)
Definition web_pod : api.Target :=
  {| api.Name := "web"; api.Type_ := "pod"; api.NetNS := 4026532001;
     api.NetworkInterfaces := ["lo"%string; "eth0"%string];
     api.Prefix := EmptyString; api.StartTime := 0; api.Pid := 0;
     api.NodeName := "n1"; api.Cluster_ := None;
     api.CaptureService := "svc-n1"; api.CapturePort := 5001 |}.

Definition web_dind : api.Target :=
  {| api.Name := "web"; api.Type_ := "docker"; api.NetNS := 4026532002;
     api.NetworkInterfaces := ["lo"%string];
     api.Prefix := "dind"; api.StartTime := 0; api.Pid := 0;
     api.NodeName := "n1"; api.Cluster_ := None;
     api.CaptureService := "svc-n1"; api.CapturePort := 5001 |}.

(** C5 as stated fails: two targets of the cached list share the name web,
    and [Pod] still finds the pod, because it looks up the name under the
    empty prefix only. *)
Lemma Pod_found_with_shared_name :
  let l := [web_pod; web_dind] in
  length (List.filter (fun t => String.eqb (api.Name t) "web") l) = 2%nat
  /\ csharg.Pod id (csharg.Set_ id csharg.zero l) "web" = Some web_pod.
Proof. split; vm_compute; reflexivity. Qed.

Lemma Pod_after_Set_witness :
  let l := [web_pod; web_dind] in
  (forall t, In t l -> is_candidate id "web" t = true ->
             api.NodeName (id t) <> EmptyString)
  /\ csharg.Pod id (csharg.Set_ id csharg.zero l) "web" = Some web_pod.
Proof.
  assert (H : forall t, In t [web_pod; web_dind] ->
                        is_candidate id "web" t = true ->
                        api.NodeName (id t) <> EmptyString).
  { intros t [<-|[<-|[]]] _; discriminate. }
  split; [exact H|].
  rewrite (Pod_after_Set id csharg.zero [web_pod; web_dind] "web" H).
  reflexivity.
Defined.

(** The index entry under (prefix, name, node name) shares its key with the
    entry under (prefix, name) when the node name is empty, and overwrites
    it: of two pods web without node name, [Pod] finds the last. *)
Lemma Pod_empty_node_name_last_wins :
  let p1 := {| api.Name := "web"; api.Type_ := "pod"; api.NetNS := 1;
               api.NetworkInterfaces := []; api.Prefix := EmptyString;
               api.StartTime := 0; api.Pid := 0; api.NodeName := EmptyString;
               api.Cluster_ := None; api.CaptureService := "a";
               api.CapturePort := 1 |} in
  let p2 := {| api.Name := "web"; api.Type_ := "pod"; api.NetNS := 2;
               api.NetworkInterfaces := []; api.Prefix := EmptyString;
               api.StartTime := 0; api.Pid := 0; api.NodeName := EmptyString;
               api.Cluster_ := None; api.CaptureService := "b";
               api.CapturePort := 2 |} in
  csharg.Pod id (csharg.Set_ id csharg.zero [p1; p2]) "web" = Some p2.
Proof. vm_compute. reflexivity. Qed.

(* ===================================================================== *)
(** * Properties of CompleteTarget                                        *)
(* ===================================================================== *)

Section CompleteTargetFacts.
Import api csharg.
Local Arguments new : simpl never.
Local Arguments check_routing : simpl never.

(** A capture service identifier is unsafe for a URL path or query when it
    contains a slash, a question mark or a percent sign. *)
Definition unsafe_routing (cs : string) : Prop :=
  exists c, In c ["/"%char; "?"%char; "%"%char]
            /\ In c (list_ascii_of_string cs).

(** The cache lookup of a target without routing: pod targets by name,
    all other targets by node, prefix and name. [Some None] is a nil
    pointer reported as found. *)
Definition cache_lookup (s : Store) (tc : TargetCache (Ptr := addr))
    (p : addr) : option (option addr) :=
  if String.eqb (Type_ (load s p)) "pod"
  then Some <$> Pod (load s) tc (Name (load s p))
  else OnNode tc (NodeName (load s p)) (Prefix (load s p)) (Name (load s p)).

Lemma ContainsAny_unsafe cs :
  ContainsAny cs "/?%" = true <-> unsafe_routing cs.
Proof.
  unfold ContainsAny, unsafe_routing. rewrite existsb_exists. split.
  - intros (c & Hc & Hex). apply existsb_exists in Hex as (d & Hd & E).
    apply Ascii.eqb_eq in E as ->. by exists d.
  - intros (c & Hc & Hin). exists c. split; [done|].
    apply existsb_exists. exists c. split; [done | apply Ascii.eqb_refl].
Qed.

Lemma ContainsAny_safe cs :
  ContainsAny cs "/?%" = false <-> ~ unsafe_routing cs.
Proof.
  rewrite <- ContainsAny_unsafe. by destruct (ContainsAny cs "/?%").
Qed.

Lemma new_spec s v :
  let (s', p') := new s v in
  p' = next s /\ load s' p' = v
  /\ forall a, a <> p' -> load s' a = load s a.
Proof.
  unfold new. repeat split.
  - unfold load; cbn. by rewrite Nat.eqb_refl.
  - intros a Ha. unfold load; cbn.
    destruct (Nat.eqb a (next s)) eqn:E; [|done].
    apply Nat.eqb_eq in E. done.
Qed.

(** C6. [CompleteTarget]: a nil descriptor fails with the missing-target
    error; a descriptor that carries a capture service is returned as the
    same pointer with the heap untouched; a descriptor without one is
    looked up, pod targets with [Pod] and the others with [OnNode], fails
    with the not-found error when absent, and otherwise comes back as a
    fresh cell holding a copy of the cached struct, all other cells
    unchanged; and whenever the capture service of the resolved target
    contains a slash, a question mark or a percent sign the call fails
    with the invalid-routing error instead. *)
Theorem CompleteTarget_cases (s : Store) (t : option addr)
    (opts : option CaptureOptions) (tc : TargetCache (Ptr := addr)) :
  (t = None -> CompleteTarget s t opts tc = (s, Failed ErrNoTarget))
  /\ (forall p, t = Some p ->
        CaptureService (load s p) <> EmptyString ->
        ~ unsafe_routing (CaptureService (load s p)) ->
        CompleteTarget s t opts tc = (s, Returned p))
  /\ (forall p, t = Some p ->
        CaptureService (load s p) <> EmptyString ->
        unsafe_routing (CaptureService (load s p)) ->
        CompleteTarget s t opts tc
        = (s, Failed (ErrInvalidRouting (load s p))))
  /\ (forall p, t = Some p ->
        CaptureService (load s p) = EmptyString ->
        cache_lookup s tc p = None ->
        CompleteTarget s t opts tc
        = (s, Failed (ErrNonExisting (load s p))))
  /\ (forall p q, t = Some p ->
        CaptureService (load s p) = EmptyString ->
        cache_lookup s tc p = Some (Some q) ->
        ~ unsafe_routing (CaptureService (load s q)) ->
        exists s' p',
          CompleteTarget s t opts tc = (s', Returned p')
          /\ p' = next s
          /\ load s' p' = load s q
          /\ forall a, a <> p' -> load s' a = load s a)
  /\ (forall p q, t = Some p ->
        CaptureService (load s p) = EmptyString ->
        cache_lookup s tc p = Some (Some q) ->
        unsafe_routing (CaptureService (load s q)) ->
        (CompleteTarget s t opts tc).2
        = Failed (ErrInvalidRouting (load s q))).
Proof.
  repeat apply conj.
  - by intros ->.
  - intros p -> Hne Hsafe. cbn.
    apply String.eqb_neq in Hne. rewrite Hne.
    unfold check_routing. apply ContainsAny_safe in Hsafe. by rewrite Hsafe.
  - intros p -> Hne Hbad. cbn.
    apply String.eqb_neq in Hne. rewrite Hne.
    unfold check_routing. apply ContainsAny_unsafe in Hbad. by rewrite Hbad.
  - intros p -> He Hl. cbn.
    apply String.eqb_eq in He. rewrite He.
    unfold cache_lookup in Hl.
    destruct (String.eqb (Type_ (load s p)) "pod").
    + destruct (Pod _ _ _); [discriminate | done].
    + by rewrite Hl.
  - intros p q -> He Hl Hsafe. cbn.
    apply String.eqb_eq in He. rewrite He.
    unfold cache_lookup in Hl.
    pose proof (new_spec s (load s q)) as Hnew.
    destruct (new s (load s q)) as [s' p'] eqn:En.
    destruct Hnew as (Hp & Hv & Hframe).
    assert (Hr : check_routing s' p' = (s', Returned p')).
    { unfold check_routing. rewrite Hv.
      apply ContainsAny_safe in Hsafe. by rewrite Hsafe. }
    exists s', p'.
    destruct (String.eqb (Type_ (load s p)) "pod").
    + destruct (Pod _ _ _) as [q'|]; [|discriminate].
      cbn in Hl. injection Hl as ->. by rewrite En.
    + rewrite Hl. by rewrite En.
  - intros p q -> He Hl Hbad. cbn.
    apply String.eqb_eq in He. rewrite He.
    unfold cache_lookup in Hl.
    pose proof (new_spec s (load s q)) as Hnew.
    destruct (new s (load s q)) as [s' p'] eqn:En.
    destruct Hnew as (Hp & Hv & Hframe).
    assert (Hr : (check_routing s' p').2
                 = Failed (ErrInvalidRouting (load s q))).
    { unfold check_routing. rewrite Hv.
      apply ContainsAny_unsafe in Hbad. by rewrite Hbad. }
    destruct (String.eqb (Type_ (load s p)) "pod").
    + destruct (Pod _ _ _) as [q'|]; [|discriminate].
      cbn in Hl. injection Hl as ->. by rewrite En.
    + rewrite Hl. by rewrite En.
Qed.

End CompleteTargetFacts.

(** A heap with a partial descriptor of the pod web at address 0, without
    routing, and the discovered target at address 1, which the cache
    indexes; address 2 is free. *)
Definition partial_web : api.Target :=
  {| api.Name := "web"; api.Type_ := "pod"; api.NetNS := 0;
     api.NetworkInterfaces := []; api.Prefix := EmptyString;
     api.StartTime := 0; api.Pid := 0; api.NodeName := EmptyString;
     api.Cluster_ := None; api.CaptureService := EmptyString;
     api.CapturePort := 0 |}.

Definition heap0 : csharg.Store :=
  {| csharg.cells := fun a => match a with
                              | O => partial_web
                              | _ => web_pod
                              end;
     csharg.next := 2%nat |}.

Definition cache0 : csharg.TargetCache :=
  csharg.Set_ (csharg.load heap0) csharg.zero [1%nat].

Lemma CompleteTarget_cases_witness :
  csharg.CompleteTarget heap0 None None cache0
  = (heap0, csharg.Failed csharg.ErrNoTarget)
  /\ csharg.CompleteTarget heap0 (Some 1%nat) None cache0
     = (heap0, csharg.Returned 1%nat)
  /\ exists s' p',
       csharg.CompleteTarget heap0 (Some 0%nat) None cache0
       = (s', csharg.Returned p')
       /\ p' = 2%nat
       /\ csharg.load s' p' = web_pod
       /\ forall a, a <> p' -> csharg.load s' a = csharg.load heap0 a.
Proof.
  split; [|split].
  - apply (CompleteTarget_cases heap0 None None cache0). reflexivity.
  - apply (CompleteTarget_cases heap0 (Some 1%nat) None cache0).
    + reflexivity.
    + discriminate.
    + apply ContainsAny_safe. reflexivity.
  - destruct (CompleteTarget_cases heap0 (Some 0%nat) None cache0)
      as (_ & _ & _ & _ & Hcopy & _).
    destruct (Hcopy 0%nat 1%nat) as (s' & p' & Hr & Hp & Hv & Hf).
    + reflexivity.
    + reflexivity.
    + vm_compute. reflexivity.
    + apply ContainsAny_safe. reflexivity.
    + exists s', p'. repeat split; assumption.
Defined.

(* ===================================================================== *)
(** * The graceful close under interleaving                               *)
(* ===================================================================== *)

(** One goroutine calls [Close], another sits in [Read]. [Close] sends its
    close frame and waits; the grace timer fires and the [select] takes the
    timeout case; the acknowledgement of the peer arrives just then, [Read]
    handles it and closes the channel; [Close] resumes in its timeout case
    and closes the channel again. *)
Definition timeout_races_ack : list websock.event :=
  [ websock.Step 0;                 (* Close: ws.m.Lock() *)
    websock.Step 0;                 (* Close: Closing = true, close frame, Unlock *)
    websock.Timeout 0;              (* Close: case <-time.After(10s) *)
    websock.Deliver 1 (websock.CloseError 1000 "ciao");
                                    (* Read: ReadMessage returns the close error *)
    websock.Step 1;                 (* Read: ws.m.Lock() *)
    websock.Step 1;                 (* Read: already Closing, an acknowledgement *)
    websock.Step 1;                 (* Read: ws.Conn.Close() *)
    websock.Step 1;                 (* Read: close(ws.closed) *)
    websock.Step 1;                 (* Read: return nil, cerr *)
    websock.Step 0;                 (* Close: ws.Conn.Close() *)
    websock.Step 0 ].               (* Close: close(ws.closed), a second time *)

(** Once the channel is closed it stays closed, whatever runs: every
    goroutine that waits on it, now or later, gets through. *)
Lemma closed_is_stable ws e ws' :
  websock.step ws e = Some ws' ->
  websock.closed ws = true -> websock.closed ws' = true.
Proof.
  unfold websock.step. intros Hs Hc.
  destruct (websock.crashed ws); [discriminate|].
  destruct e as [i|i r|i|i];
    destruct (websock.goroutines ws !! i) as [[]|]; try discriminate;
    try (destruct (websock.m ws); try discriminate);
    try (destruct r; destruct (websock.Conn_open ws); try discriminate);
    try (rewrite Hc in Hs);
    injection Hs as <-; cbn; try done;
    unfold websock.start_closing; destruct (websock.Closing ws); done.
Qed.

Lemma waiter_gets_through ws i :
  websock.crashed ws = false ->
  websock.closed ws = true ->
  websock.goroutines ws !! i = Some websock.Close_select ->
  websock.step ws (websock.Signalled i)
  = Some (websock.set_pc ws i websock.Close_returned).
Proof.
  intros Hcr Hc Hi. unfold websock.step. by rewrite Hcr, Hi, Hc.
Qed.

(** C8 fails on the code: under the schedule [timeout_races_ack] every
    step is enabled, [Read] returns the close error of the peer, and the
    last step of [Close] closes the completion channel a second time, which
    is the panic [close of closed channel]. *)
Theorem Close_timeout_closes_channel_twice :
  let r := websock.run
             (websock.New [websock.Close_Lock; websock.Read_ReadMessage])
             timeout_races_ack in
  (fun ws => websock.goroutines ws !! 1%nat) <$> r
  = Some (Some (websock.Read_returned (websock.ErrClose 1000 "ciao")))
  /\ websock.closed <$> r = Some true
  /\ websock.crashed <$> r = Some true.
Proof. cbv zeta. repeat split; vm_compute; reflexivity. Qed.

(* ===================================================================== *)
(** * Options on the wire: Bytes and NewOption                            *)
(* ===================================================================== *)

Section OptionFacts.
Import pcapng.

(** The [n] octets of [v] in the byte order [e]. *)
Definition enc (n : nat) (e : ByteOrder) (v : Z) : list byte :=
  match e with
  | LittleEndian => le_bytes n v
  | BigEndian => rev (le_bytes n v)
  end.

(** The zero octets after a value of [n] octets, up to the next multiple
    of 4. *)
Definition padlen (n : nat) : nat := ((4 - n mod 4) mod 4)%nat.

Definition round_up4 (n : nat) : nat := (4 * ((n + 3) / 4))%nat.

Lemma Z_of_byte_range b : 0 <= Z_of_byte b < 256.
Proof.
  unfold Z_of_byte. pose proof (Byte.to_N_bounded b). lia.
Qed.

Lemma Z_of_byte_of_Z v : Z_of_byte (byte_of_Z v) = v mod 256.
Proof.
  unfold Z_of_byte, byte_of_Z.
  pose proof (Z.mod_pos_bound v 256 ltac:(lia)) as Hr.
  destruct (Byte.of_N (Z.to_N (v mod 256))) as [b|] eqn:E.
  - apply Byte.to_of_N in E. rewrite E. lia.
  - apply Byte.of_N_None_iff in E. lia.
Qed.

Lemma lor_shiftl_8 a b : 0 <= a < 256 -> 0 <= b ->
  Z.lor a (Z.shiftl b 8) = a + 256 * b.
Proof.
  intros Ha Hb. rewrite Z.shiftl_mul_pow2 by lia.
  change (2 ^ 8) with 256.
  pose proof (Z.add_lor_land a (b * 256)) as Hadd.
  enough (Z.land a (b * 256) = 0) by lia.
  apply Z.bits_inj'. intros i Hi.
  rewrite Z.land_spec, Z.bits_0.
  destruct (Z.lt_ge_cases i 8) as [Hlt|Hge].
  - change 256 with (2 ^ 8).
    rewrite (Z.mul_pow2_bits_low b 8 i) by lia. apply andb_false_r.
  - destruct (Z.eq_dec a 0) as [->|Hne]; [by rewrite Z.bits_0|].
    rewrite (Z.bits_above_log2 a i); [done|lia|].
    assert (Z.log2 a < 8); [|lia].
    apply Z.log2_lt_pow2; lia.
Qed.

Lemma le_value_nonneg b : 0 <= le_value b.
Proof.
  induction b as [|x b IH]; cbn [le_value]; [lia|].
  rewrite lor_shiftl_8; [|apply Z_of_byte_range|done].
  pose proof (Z_of_byte_range x). lia.
Qed.

Lemma length_le_bytes n : forall v, length (le_bytes n v) = n.
Proof. induction n as [|n IH]; intros v; cbn; [done|by rewrite IH]. Qed.

Lemma le_value_le_bytes n : forall v, 0 <= v ->
  le_value (le_bytes n v) = v mod 2 ^ (8 * Z.of_nat n).
Proof.
  induction n as [|n IH]; intros v Hv; cbn [le_bytes le_value].
  - change (8 * Z.of_nat 0) with 0. by rewrite Z.mod_1_r.
  - rewrite Z.shiftr_div_pow2 by lia. change (2 ^ 8) with 256.
    assert (0 <= v / 256) by (apply Z.div_pos; lia).
    rewrite IH by done.
    rewrite lor_shiftl_8.
    2:{ rewrite Z_of_byte_of_Z. apply Z.mod_pos_bound. lia. }
    2:{ apply Z.mod_pos_bound. lia. }
    rewrite Z_of_byte_of_Z.
    replace (8 * Z.of_nat (S n)) with (8 + 8 * Z.of_nat n) by lia.
    rewrite Z.pow_add_r by lia. change (2 ^ 8) with 256.
    rewrite (Z.rem_mul_r v 256 (2 ^ (8 * Z.of_nat n))) by lia. done.
Qed.

Lemma length_enc n e v : length (enc n e v) = n.
Proof.
  destruct e; cbn; [rewrite length_rev|]; apply length_le_bytes.
Qed.

Lemma UintN_enc n e v rest : 0 <= v < 2 ^ (8 * Z.of_nat n) ->
  UintN n e (enc n e v ++ rest) = Ret v.
Proof.
  intros Hv. unfold UintN.
  rewrite length_app, length_enc.
  replace (n <=? n + length rest)%nat with true
    by (symmetry; apply Nat.leb_le; lia).
  rewrite take_app_length' by (by rewrite length_enc).
  destruct e; cbn [enc]; rewrite ?rev_involutive;
    rewrite le_value_le_bytes by lia; by rewrite Z.mod_small.
Qed.

Lemma PutUintN_enc n e b v : length b = n ->
  PutUintN n e b v = Ret (enc n e v).
Proof.
  intros Hb. unfold PutUintN. rewrite Hb, Nat.leb_refl.
  rewrite drop_ge by lia. rewrite !app_nil_r. by destruct e.
Qed.


Lemma slice_ok (b : list byte) lo hi :
  (lo <= hi)%nat -> (hi <= length b)%nat ->
  slice b lo hi = Ret (take (hi - lo) (drop lo b)).
Proof.
  intros H1 H2. unfold slice.
  apply Nat.leb_le in H1, H2. by rewrite H1, H2.
Qed.

Lemma slice_from_ok (b : list byte) lo :
  (lo <= length b)%nat -> slice_from b lo = Ret (drop lo b).
Proof. intros H. unfold slice_from. apply Nat.leb_le in H. by rewrite H. Qed.

(** Writing an integer through the sub-slice [b[lo:lo+n]]. *)
Lemma update_slice_Put n e (b : list byte) lo v :
  (lo + n <= length b)%nat ->
  update_slice b lo (lo + n) (fun s => PutUintN n e s v)
  = Ret (take lo b ++ enc n e v ++ drop (lo + n) b).
Proof.
  intros H. unfold update_slice.
  rewrite slice_ok by lia. cbn [mbind result_bind].
  rewrite PutUintN_enc; [done|].
  rewrite length_take, length_drop. lia.
Qed.

Lemma update_slice_short n e (b : list byte) lo v :
  (length b < lo + n)%nat ->
  update_slice b lo (lo + n) (fun s => PutUintN n e s v) = Panic SliceRange.
Proof.
  intros H. unfold update_slice, slice.
  replace (lo + n <=? length b)%nat with false
    by (symmetry; apply Nat.leb_gt; lia).
  by rewrite andb_false_r.
Qed.

(** The length [Bytes] writes into the option: the low 16 bits. *)
Definition wire_length (value : list byte) : Z :=
  Z.of_nat (length value) mod 65536.

Lemma wire_length_range value :
  0 <= wire_length value < 65536
  /\ wire_length value <= Z.of_nat (length value).
Proof.
  unfold wire_length. split; [apply Z.mod_pos_bound; lia|].
  apply Z.mod_le; lia.
Qed.

Lemma land3_mod n : 0 <= n -> Z.land n 3 = n mod 4.
Proof. intros H. change 3 with (Z.ones 2). by rewrite Z.land_ones by lia. Qed.

Lemma padlen_spec (n : nat) :
  Z.of_nat (padlen n) = (4 - Z.of_nat n mod 4) mod 4.
Proof.
  unfold padlen. rewrite Nat2Z.inj_mod, Nat2Z.inj_sub.
  - by rewrite Nat2Z.inj_mod.
  - pose proof (Nat.mod_upper_bound n 4). lia.
Qed.

Lemma Bytes_layout e o :
  wire_length (Value o) < 65532 ->
  Bytes (Some o) e
  = Ret (enc 2 e (Code o) ++ enc 2 e (wire_length (Value o))
         ++ take (Z.to_nat (wire_length (Value o))) (Value o)
         ++ replicate (padlen (Z.to_nat (wire_length (Value o)))) x00).
Proof.
  intros Hl. unfold Bytes.
  set (value := Value o) in *.
  destruct (wire_length_range value) as [Hr Hle].
  fold (wire_length value).
  set (w := Z.to_nat (wire_length value)).
  assert (Hw : wire_length value = Z.of_nat w) by lia.
  rewrite Hw in *.
  rewrite Z.mod_small by lia.
  replace (Z.to_nat (2 + 2 + Z.of_nat w)) with (4 + w)%nat by lia.
  change PutUint16 with (PutUintN 2).
  assert (H1 : update_slice (replicate (4 + w) x00) 0 2
                 (fun s => PutUintN 2 e s (Code o))
               = Ret (enc 2 e (Code o) ++ replicate (2 + w) x00)).
  { rewrite (update_slice_Put 2 e _ 0) by (rewrite length_replicate; lia).
    rewrite take_0, app_nil_l, drop_replicate. repeat f_equal; lia. }
  assert (H2 : update_slice (enc 2 e (Code o) ++ replicate (2 + w) x00) 2 4
                 (fun s => PutUintN 2 e s (Z.of_nat w))
               = Ret (enc 2 e (Code o) ++ enc 2 e (Z.of_nat w)
                      ++ replicate w x00)).
  { rewrite (update_slice_Put 2 e _ 2)
      by (rewrite length_app, length_enc, length_replicate; lia).
    rewrite (take_app_length' (enc 2 e (Code o))) by (by rewrite length_enc).
    rewrite (drop_app_ge (enc 2 e (Code o))) by (rewrite length_enc; lia).
    rewrite length_enc, drop_replicate. repeat f_equal; lia. }
  rewrite H1. cbn [mbind result_bind]. rewrite H2. cbn [mbind result_bind].
  rewrite slice_from_ok
    by (rewrite !length_app, !length_enc, length_replicate; lia).
  cbn [mbind result_bind].
  rewrite (app_assoc (enc 2 e (Code o))).
  rewrite (take_app_length' (enc 2 e (Code o) ++ enc 2 e (Z.of_nat w)))
    by (rewrite length_app, !length_enc; lia).
  rewrite (drop_app_length' (enc 2 e (Code o) ++ enc 2 e (Z.of_nat w)))
    by (rewrite length_app, !length_enc; lia).
  unfold copy. rewrite length_replicate.
  rewrite (drop_ge (replicate w x00)) by (rewrite length_replicate; lia).
  rewrite app_nil_r.
  rewrite land3_mod by lia.
  pose proof (padlen_spec w) as Hp.
  pose proof (Z.mod_pos_bound (Z.of_nat w) 4 ltac:(lia)) as Hm.
  destruct (Z.of_nat w mod 4 =? 0) eqn:E0; cbn [negb].
  - apply Z.eqb_eq in E0. rewrite E0 in Hp. change ((4 - 0) mod 4) with 0 in Hp.
    replace (padlen w) with 0%nat by lia. cbn [replicate].
    by rewrite app_nil_r, <- !app_assoc.
  - apply Z.eqb_neq in E0.
    rewrite Z.mod_small in Hp by lia.
    replace (Z.to_nat (4 - Z.of_nat w mod 4)) with (padlen w) by lia.
    by rewrite <- !app_assoc.
Qed.

(** [uint16(2+2)+length] wraps when the low 16 bits of the length are
    65532 or more: [make] returns fewer than 4 octets and writing the
    header runs out of the slice. *)
Theorem Bytes_panics_on_wrapped_length e o :
  65532 <= wire_length (Value o) ->
  Bytes (Some o) e = Panic SliceRange.
Proof.
  intros Hl. unfold Bytes.
  set (value := Value o) in *.
  destruct (wire_length_range value) as [Hr Hle].
  fold (wire_length value).
  set (w := wire_length value) in *.
  replace ((2 + 2 + w) mod 65536) with (w - 65532).
  2:{ symmetry. rewrite <- (Z.mod_small (w - 65532) 65536) by lia.
      rewrite <- (Z_mod_plus_full (w - 65532) 1 65536).
      f_equal. lia. }
  change PutUint16 with (PutUintN 2).
  destruct (decide (w - 65532 < 2)) as [Hs|Hs].
  - rewrite (update_slice_short 2 e _ 0) by (rewrite length_replicate; lia).
    done.
  - rewrite (update_slice_Put 2 e _ 0) by (rewrite length_replicate; lia).
    cbn [mbind result_bind].
    rewrite (update_slice_short 2 e _ 2); [done|].
    rewrite take_0, app_nil_l, length_app, length_enc, length_drop,
      length_replicate. lia.
Qed.


Lemma UintN_enc_exact n e v : 0 <= v < 2 ^ (8 * Z.of_nat n) ->
  UintN n e (enc n e v) = Ret v.
Proof.
  intros Hv. rewrite <- (app_nil_r (enc n e v)). by apply UintN_enc.
Qed.

Lemma round_up4_spec (n : nat) : round_up4 n = (n + padlen n)%nat.
Proof.
  unfold round_up4, padlen.
  pose proof (Nat.div_mod_eq n 4) as Hn.
  pose proof (Nat.mod_upper_bound n 4 ltac:(lia)) as Hm.
  pose proof (Nat.div_mod_eq (n + 3) 4) as Hn3.
  pose proof (Nat.mod_upper_bound (n + 3) 4 ltac:(lia)) as Hm3.
  pose proof (Nat.div_mod_eq (4 - n mod 4) 4) as Hp.
  pose proof (Nat.mod_upper_bound (4 - n mod 4) 4 ltac:(lia)) as Hpm.
  lia.
Qed.

(** Decoding an option laid out on the wire: code, length, value, padding
    up to the next multiple of 4, whatever the padding octets are and
    whatever follows. *)
Lemma NewOption_decodes e code l value pad tail :
  0 <= code < 65536 -> 0 <= l < 65532 ->
  length value = Z.to_nat l ->
  length pad = padlen (Z.to_nat l) ->
  code <> 0 \/ l <> 0 ->
  NewOption (enc 2 e code ++ enc 2 e l ++ value ++ pad ++ tail) e
  = Ret (Some {| Code := code; Value := value |},
         4 + l + Z.of_nat (padlen (Z.to_nat l))).
Proof.
  intros Hc Hl Hv Hp Hne. unfold NewOption.
  change Uint16 with (UintN 2).
  rewrite UintN_enc by (change (2 ^ (8 * Z.of_nat 2)) with 65536; lia).
  cbn [mbind result_bind].
  rewrite slice_ok by (rewrite ?length_app, ?length_enc; lia).
  cbn [mbind result_bind].
  rewrite (drop_app_length' (enc 2 e code)) by (by rewrite length_enc).
  rewrite (take_app_length' (enc 2 e l)) by (by rewrite length_enc).
  rewrite UintN_enc_exact by (change (2 ^ (8 * Z.of_nat 2)) with 65536; lia).
  cbn [mbind result_bind].
  replace (negb (code =? OptEndofOpt) || negb (l =? 0)) with true.
  2:{ symmetry. apply orb_true_iff. unfold OptEndofOpt.
      destruct Hne as [H|H]; [left|right];
        apply negb_true_iff, Z.eqb_neq; done. }
  rewrite (Z.mod_small (4 + l)) by lia.
  rewrite slice_ok by (rewrite ?length_app, ?length_enc; lia).
  cbn [mbind result_bind].
  rewrite (app_assoc (enc 2 e code)).
  rewrite (drop_app_length' (enc 2 e code ++ enc 2 e l))
    by (rewrite length_app, !length_enc; lia).
  rewrite (take_app_length' value) by lia.
  do 2 f_equal.
  rewrite land3_mod by lia.
  pose proof (padlen_spec (Z.to_nat l)) as Hpad.
  rewrite Z2Nat.id in Hpad by lia.
  pose proof (Z.mod_pos_bound l 4 ltac:(lia)) as Hm.
  replace ((2 + 2 + l) mod 4) with (l mod 4)
    by (replace (2 + 2 + l) with (l + 1 * 4) by lia;
        by rewrite Z_mod_plus_full).
  destruct (l mod 4 =? 0) eqn:E0; cbn [negb].
  - apply Z.eqb_eq in E0. rewrite E0 in Hpad.
    change ((4 - 0) mod 4) with 0 in Hpad. lia.
  - apply Z.eqb_neq in E0. rewrite Z.mod_small in Hpad by lia. lia.
Qed.







(** A declared length of 65532 or more makes the upper bound [4+length]
    of the value's slice expression wrap below 4: [NewOption] panics
    whatever the buffer holds after the header. *)
Theorem NewOption_length_wraps e code l rest :
  0 <= code < 65536 -> 65532 <= l < 65536 ->
  NewOption (enc 2 e code ++ enc 2 e l ++ rest) e = Panic SliceRange.
Proof.
  intros Hc Hl. unfold NewOption.
  change Uint16 with (UintN 2).
  rewrite UintN_enc by (change (2 ^ (8 * Z.of_nat 2)) with 65536; lia).
  cbn [mbind result_bind].
  rewrite slice_ok by (rewrite ?length_app, ?length_enc; lia).
  cbn [mbind result_bind].
  rewrite (drop_app_length' (enc 2 e code)) by (by rewrite length_enc).
  rewrite (take_app_length' (enc 2 e l)) by (by rewrite length_enc).
  rewrite UintN_enc_exact by (change (2 ^ (8 * Z.of_nat 2)) with 65536; lia).
  cbn [mbind result_bind].
  replace (negb (code =? OptEndofOpt) || negb (l =? 0)) with true.
  2:{ symmetry. apply orb_true_iff. right.
      apply negb_true_iff, Z.eqb_neq. lia. }
  replace ((4 + l) mod 65536) with (l - 65532).
  2:{ symmetry. rewrite <- (Z.mod_small (l - 65532) 65536) by lia.
      rewrite <- (Z_mod_plus_full (l - 65532) 1 65536). f_equal. lia. }
  unfold slice.
  replace (4 <=? Z.to_nat (l - 65532))%nat with false
    by (symmetry; apply Nat.leb_gt; lia).
  done.
Qed.

(** Round trip. An option with a 16-bit code and a value of at most
    65531 octets, other than the option with code 0 and no value, is
    encoded into [round_up4 (4 + length value)] octets, and decoding these
    octets, whatever follows them, gives the option back and skips
    exactly over them. *)
Theorem Option_round_trip e o :
  0 <= Code o < 65536 ->
  Z.of_nat (length (Value o)) < 65532 ->
  Code o <> 0 \/ Value o <> [] ->
  exists b,
    Bytes (Some o) e = Ret b
    /\ length b = round_up4 (4 + length (Value o))
    /\ forall tail, NewOption (b ++ tail) e = Ret (Some o, Z.of_nat (length b)).
Proof.
  intros Hc Hl Hne.
  assert (Hw : wire_length (Value o) = Z.of_nat (length (Value o)))
    by (unfold wire_length; apply Z.mod_small; lia).
  eexists. split; [apply Bytes_layout; lia|].
  rewrite Hw, Nat2Z.id, firstn_all.
  split.
  - rewrite !length_app, !length_enc, length_replicate, round_up4_spec.
    unfold padlen.
    replace ((4 + length (Value o)) mod 4)%nat
      with (length (Value o) mod 4)%nat; [lia|].
    replace (4 + length (Value o))%nat
      with (length (Value o) + 1 * 4)%nat by lia.
    by rewrite Nat.Div0.mod_add.
  - intros tail. rewrite <- !app_assoc.
    rewrite (NewOption_decodes e (Code o) (Z.of_nat (length (Value o))));
      try lia.
    + destruct o as [c v]. cbn [Code Value].
      rewrite !length_app, !length_enc, length_replicate, Nat2Z.id.
      do 2 f_equal. lia.
    + by rewrite Nat2Z.id, length_replicate.
    + destruct Hne as [?|Hv]; [by left|right].
      destruct (Value o); [done|cbn; lia].
Qed.

(** The option with code 0 and no value is encoded as the end-of-options
    mark, which decodes to the nil option: it does not survive the round
    trip. *)
Theorem Option_zero_is_end_of_options e tail :
  exists b,
    Bytes (Some {| Code := 0; Value := [] |}) e = Ret b
    /\ Bytes None e = Ret b
    /\ NewOption (b ++ tail) e = Ret (None, 4).
Proof. exists [x00; x00; x00; x00]. by destruct e. Qed.


Lemma Bytes_truncates_aux e o :
  65536 <= Z.of_nat (length (Value o)) ->
  wire_length (Value o) < 65532 ->
  exists b,
    Bytes (Some o) e = Ret b
    /\ (length b < length (Value o))%nat
    /\ forall tail,
         NewOption (b ++ tail) e
         = Ret (if (Code o mod 65536 =? 0) && (wire_length (Value o) =? 0)
                then None
                else Some {| Code := Code o mod 65536;
                             Value := take (Z.to_nat (wire_length (Value o)))
                                           (Value o) |},
                Z.of_nat (length b)).
Proof.
  intros Hlong Hl.
  destruct (wire_length_range (Value o)) as [Hr Hle].
  eexists. split; [by apply Bytes_layout|].
  split.
  - rewrite !length_app, !length_enc, length_take, length_replicate.
    pose proof (Nat.mod_upper_bound (Z.to_nat (wire_length (Value o))) 4).
    unfold padlen.
    pose proof (Nat.mod_upper_bound
                  (4 - Z.to_nat (wire_length (Value o)) mod 4) 4).
    pose proof (Z.div_mod (Z.of_nat (length (Value o))) 65536 ltac:(lia))
      as Hd.
    fold (wire_length (Value o)) in Hd.
    assert (1 <= Z.of_nat (length (Value o)) / 65536)
      by (apply Z.div_le_lower_bound; lia).
    lia.
  - intros tail. rewrite <- !app_assoc.
    assert (Henc : enc 2 e (Code o) = enc 2 e (Code o mod 65536)).
    { unfold enc. cbn [le_bytes]. unfold byte_of_Z.
      change 65536 with (2 ^ 16).
      assert (H8 : forall v, (v mod 2 ^ 16) mod 256 = v mod 256).
      { intros v. change 256 with (2 ^ 8).
        rewrite <- !Z.land_ones by lia. rewrite <- Z.land_assoc.
        by change (Z.land (Z.ones 16) (Z.ones 8)) with (Z.ones 8). }
      assert (H16 : Z.shiftr (Code o mod 2 ^ 16) 8 mod 256
                    = Z.shiftr (Code o) 8 mod 256).
      { change 256 with (2 ^ 8). rewrite <- !Z.land_ones by lia.
        apply Z.bits_inj'. intros n Hn.
        rewrite !Z.land_spec, !Z.shiftr_spec, Z.land_spec by lia.
        destruct (decide (n < 8)) as [Hlt|Hge].
        - rewrite (Z.ones_spec_low 16 (n + 8)) by lia. by rewrite andb_true_r.
        - rewrite (Z.ones_spec_high 8 n) by lia. by rewrite !andb_false_r. }
      rewrite H8, H16. by destruct e. }
    rewrite Henc.
    pose proof (Z.mod_pos_bound (Code o) 65536 ltac:(lia)) as Hc.
    destruct (decide (Code o mod 65536 = 0 /\ wire_length (Value o) = 0))
      as [[Hc0 Hw0]|Hne].
    + rewrite Hc0, Hw0. cbn [Z.to_nat take padlen replicate app].
      by destruct e.
    + rewrite (NewOption_decodes e (Code o mod 65536)
                 (wire_length (Value o))); try lia.
      * replace ((Code o mod 65536 =? 0) && (wire_length (Value o) =? 0))
          with false.
        2:{ symmetry. apply andb_false_iff.
            destruct (decide (Code o mod 65536 = 0)); [right|left];
              apply Z.eqb_neq; [tauto|done]. }
        rewrite !length_app, !length_enc, length_take, length_replicate.
        do 2 f_equal. lia.
      * rewrite length_take. lia.
      * by rewrite length_replicate.
Qed.

(** A value of 65536 octets or more whose length has low 16 bits below
    65532 is encoded without any failure, but only by its first
    [length mod 65536] octets: the option that comes out is shorter
    than the value that went in. *)
Theorem Bytes_truncates_long_value e o :
  0 <= Code o < 65536 ->
  65536 <= Z.of_nat (length (Value o)) ->
  wire_length (Value o) < 65532 ->
  exists b,
    Bytes (Some o) e = Ret b
    /\ (length b < length (Value o))%nat
    /\ forall tail,
         NewOption (b ++ tail) e
         = Ret (if (Code o =? 0) && (wire_length (Value o) =? 0)
                then None
                else Some {| Code := Code o;
                             Value := take (Z.to_nat (wire_length (Value o)))
                                           (Value o) |},
                Z.of_nat (length b)).
Proof.
  intros Hc Hlong Hl.
  destruct (Bytes_truncates_aux e o Hlong Hl) as (b & Hb & Hlen & Hdec).
  rewrite (Z.mod_small (Code o)) in Hdec by lia. eauto.
Qed.


End OptionFacts.

(** The comment option [hi!]: three octets of value, one of padding. *)
Definition comment_hi : pcapng.Option :=
  {| pcapng.Code := 1; pcapng.Value := [x68; x69; x21] |}.

Lemma Option_round_trip_witness :
  exists b,
    pcapng.Bytes (Some comment_hi) pcapng.BigEndian = pcapng.Ret b
    /\ length b = round_up4 (4 + length (pcapng.Value comment_hi))
    /\ forall tail,
         pcapng.NewOption (b ++ tail) pcapng.BigEndian
         = pcapng.Ret (Some comment_hi, Z.of_nat (length b)).
Proof.
  apply (Option_round_trip pcapng.BigEndian comment_hi).
  - cbn. lia.
  - cbn. lia.
  - left. cbn. lia.
Defined.

(** A value of 65534 octets. *)
Definition value_65534 : list byte := replicate (Z.to_nat 65534) x2a.

Lemma Bytes_panics_on_wrapped_length_witness :
  pcapng.Bytes (Some {| pcapng.Code := 1; pcapng.Value := value_65534 |})
               pcapng.LittleEndian
  = pcapng.Panic pcapng.SliceRange.
Proof.
  apply (Bytes_panics_on_wrapped_length pcapng.LittleEndian
           {| pcapng.Code := 1; pcapng.Value := value_65534 |}).
  vm_compute. discriminate.
Defined.

(** A value of 65537 octets: the low 16 bits of its length are 1. *)
Definition value_65537 : list byte := replicate (Z.to_nat 65537) x2a.

Lemma Bytes_truncates_long_value_witness :
  exists b,
    pcapng.Bytes (Some {| pcapng.Code := 1; pcapng.Value := value_65537 |})
                 pcapng.LittleEndian = pcapng.Ret b
    /\ (length b < length value_65537)%nat
    /\ forall tail,
         pcapng.NewOption (b ++ tail) pcapng.LittleEndian
         = pcapng.Ret (Some {| pcapng.Code := 1; pcapng.Value := [x2a] |},
                       Z.of_nat (length b)).
Proof.
  apply (Bytes_truncates_long_value pcapng.LittleEndian
           {| pcapng.Code := 1; pcapng.Value := value_65537 |}).
  - cbn. lia.
  - vm_compute. discriminate.
  - vm_compute. reflexivity.
Defined.


Lemma NewOption_length_wraps_witness :
  pcapng.NewOption
    (enc 2 pcapng.LittleEndian 1 ++ enc 2 pcapng.LittleEndian 65535
       ++ value_65537)
    pcapng.LittleEndian
  = pcapng.Panic pcapng.SliceRange.
Proof.
  apply (NewOption_length_wraps pcapng.LittleEndian 1 65535 value_65537); lia.
Defined.

(* ===================================================================== *)
(** * The stream editor before the section header block is complete      *)
(* ===================================================================== *)

Section StreamFacts.
Import pcapng.

Variable yaml_Marshal : ContainerInfo -> option (list byte).

(** The loop of the goroutine that [StartCaptureStream] starts
    (sharktank.go): every message read from the websocket is handed to
    [pcapedit.Write], until the websocket has no more ([msgs] is used up)
    or the writer fails. *)
Fixpoint capture_loop {W : Type} `{Writer W} (pe : StreamEditor (W := W))
    (msgs : list (list byte)) : result StreamEditor :=
  match msgs with
  | [] => Ret pe
  | data :: msgs' =>
      r ← Write yaml_Marshal pe data;
      match r.1.2 with
      | Some _ => Ret r.2
      | None => capture_loop r.2 msgs'
      end
  end.

(** The block type of a section header block. *)
Definition shb_magic : list byte := [x0a; x0d; x0d; x0a].

Lemma bytes_Equal_eq a : forall b, bytes_Equal a b = true <-> a = b.
Proof.
  induction a as [|x a IH]; intros [|y b]; cbn; try (split; congruence).
  rewrite andb_true_iff, IH. split.
  - intros [Hx ->]. by rewrite (byte_dec_bl _ _ Hx).
  - intros [= -> ->]. split; [by apply byte_dec_lb|done].
Qed.

Lemma bytes_Equal_neq a b : a <> b -> bytes_Equal a b = false.
Proof.
  intros Hne. destruct (bytes_Equal a b) eqn:E; [|done].
  by apply bytes_Equal_eq in E.
Qed.

Section AnyWriter.
Context {W : Type} `{Writer W}.
Implicit Types pe : StreamEditor (W := W).

(** Fewer than 12 octets so far: [process] keeps them and hands an empty
    slice to the sink. *)
Lemma process_buffering pe b :
  passThrough pe = false -> shbLen pe = 0 ->
  (length (shb pe ++ b) < 12)%nat ->
  process yaml_Marshal pe b = Ret ([], set_shb pe (shb pe ++ b)).
Proof.
  intros Hp Hl Hn. unfold process. rewrite Hp. cbn [set_shb shb shbLen].
  rewrite Hl. cbn [Z.eqb andb].
  replace (12 <=? length (shb pe ++ b))%nat with false
    by (symmetry; apply Nat.leb_gt; lia).
  cbn. by rewrite Hl.
Qed.

(** Twelve octets or more that do not begin with the block type of a
    section header block: [process] returns everything buffered and
    switches to pass-through. *)
Lemma process_bad_magic pe b :
  passThrough pe = false -> shbLen pe = 0 ->
  (12 <= length (shb pe ++ b))%nat ->
  take 4 (shb pe ++ b) <> shb_magic ->
  process yaml_Marshal pe b
  = Ret (shb pe ++ b,
         set_shb (set_passThrough (set_shb pe (shb pe ++ b)) true) []).
Proof.
  intros Hp Hl Hn Hm. unfold process. rewrite Hp. cbn [set_shb shb shbLen].
  rewrite Hl. cbn [Z.eqb andb].
  replace (12 <=? length (shb pe ++ b))%nat with true
    by (symmetry; apply Nat.leb_le; lia).
  unfold shbLenEndianness. cbn [shb set_shb].
  rewrite (slice_ok _ 0 4) by lia. cbn [mbind result_bind].
  rewrite ?drop_0. change (4 - 0)%nat with 4%nat.
  unfold shb_magic in Hm. rewrite (bytes_Equal_neq _ _ Hm). reflexivity.
Qed.

(** A section header block that declares the length 0: [process] reads
    the length, finds the block incomplete for ever and returns nothing;
    the editor stays as it was but for the octets kept. *)
Lemma process_zero_length pe b :
  passThrough pe = false -> shbLen pe = 0 ->
  (12 <= length (shb pe ++ b))%nat ->
  take 8 (shb pe ++ b) = shb_magic ++ [x00; x00; x00; x00] ->
  exists pe',
    process yaml_Marshal pe b = Ret ([], pe')
    /\ passThrough pe' = false /\ shbLen pe' = 0
    /\ shb pe' = shb pe ++ b /\ sink pe' = sink pe.
Proof.
  intros Hp Hl Hn Hm. unfold process. rewrite Hp. cbn [set_shb shb shbLen].
  rewrite Hl. cbn [Z.eqb andb].
  replace (12 <=? length (shb pe ++ b))%nat with true
    by (symmetry; apply Nat.leb_le; lia).
  unfold shbLenEndianness. cbn [shb set_shb].
  rewrite !slice_ok by lia. cbn [mbind result_bind].
  rewrite ?drop_0. change (4 - 0)%nat with 4%nat.
  change (8 - 4)%nat with 4%nat.
  assert (H4 : take 4 (shb pe ++ b) = shb_magic).
  { change 4%nat with (4 `min` 8)%nat. by rewrite <- take_take, Hm. }
  assert (H48 : take 4 (drop 4 (shb pe ++ b)) = [x00; x00; x00; x00]).
  { rewrite take_drop_commute. change (4 + 4)%nat with 8%nat. by rewrite Hm. }
  rewrite H4, H48.
  change (bytes_Equal shb_magic [x0a; x0d; x0d; x0a]) with true.
  cbn [negb].
  set (e := if bytes_Equal _ _ then BigEndian else LittleEndian).
  assert (He : Uint32 e [x00; x00; x00; x00] = Ret 0)
    by (by destruct e; vm_compute).
  rewrite He. cbn [mbind result_bind fst snd negb].
  cbn [set_framing shbLen Z.eqb negb andb].
  eexists. split; [reflexivity|done].
Qed.

End AnyWriter.

Implicit Types pe : StreamEditor (W := list byte).

(** In pass-through the loop copies the messages to the sink in order
    and nothing else. *)
Lemma capture_loop_passThrough msgs : forall pe,
  passThrough pe = true ->
  exists pe', capture_loop pe msgs = Ret pe'
    /\ sink pe' = sink pe ++ concat msgs
    /\ passThrough pe' = true /\ shb pe' = shb pe.
Proof.
  induction msgs as [|b msgs IH]; intros pe Hp.
  - exists pe. cbn. by rewrite app_nil_r.
  - cbn [capture_loop]. unfold Write, process. rewrite Hp.
    cbn [mbind result_bind fst snd sink_Write Buffer_Writer].
    unfold sink_Write, Buffer_Writer. cbn [fst snd].
    destruct (IH (set_sink pe (sink pe ++ b)) Hp)
      as (pe' & Hr & Hs & Hpt & Hshb).
    exists pe'. split; [exact Hr|].
    cbn [concat]. rewrite Hs. cbn. by rewrite <- app_assoc.
Qed.


Lemma Write_Buffer pe b out pe1 :
  process yaml_Marshal pe b = Ret (out, pe1) ->
  Write yaml_Marshal pe b
  = Ret ((Z.of_nat (length b), None), set_sink pe1 (sink pe1 ++ out)).
Proof. intros Hr. unfold Write. by rewrite Hr. Qed.

Lemma capture_loop_no_header msgs : forall pe,
  passThrough pe = false -> shbLen pe = 0 ->
  (length (shb pe) < 12)%nat ->
  take 4 (shb pe ++ concat msgs) <> shb_magic ->
  exists pe', capture_loop pe msgs = Ret pe'
    /\ if (length (shb pe ++ concat msgs) <? 12)%nat
       then sink pe' = sink pe /\ shb pe' = shb pe ++ concat msgs
            /\ passThrough pe' = false
       else sink pe' = sink pe ++ shb pe ++ concat msgs /\ shb pe' = []
            /\ passThrough pe' = true.
Proof.
  induction msgs as [|b msgs IH]; intros pe Hp Hl Hn Hm.
  - exists pe. cbn [capture_loop concat]. rewrite app_nil_r.
    replace (length (shb pe) <? 12)%nat with true
      by (symmetry; apply Nat.ltb_lt; lia).
    done.
  - cbn [capture_loop concat] in *. rewrite app_assoc in Hm |- *.
    destruct (decide (length (shb pe ++ b) < 12)%nat) as [Hs|Hs].
    + rewrite (Write_Buffer _ _ _ _ (process_buffering pe b Hp Hl Hs)).
      cbn [mbind result_bind fst snd].
      destruct (IH (set_sink (set_shb pe (shb pe ++ b))
                      (sink (set_shb pe (shb pe ++ b)) ++ [])))
        as (pe' & Hr & Hc); try done.
      exists pe'. split; [exact Hr|].
      cbn [set_sink set_shb shb sink] in Hc. by rewrite app_nil_r in Hc.
    + assert (H4 : take 4 (shb pe ++ b) <> shb_magic).
      { rewrite take_app_le in Hm by lia. done. }
      rewrite (Write_Buffer _ _ _ _
                 (process_bad_magic pe b Hp Hl ltac:(lia) H4)).
      cbn [mbind result_bind fst snd].
      edestruct (capture_loop_passThrough msgs) as (pe' & Hr & Hk & Hpt & Hb);
        [|exists pe'; split; [exact Hr|]].
      * reflexivity.
      * replace (length ((shb pe ++ b) ++ concat msgs) <? 12)%nat with false
          by (symmetry; apply Nat.ltb_ge; rewrite length_app; lia).
        rewrite Hk, Hb. cbn. by rewrite <- !app_assoc.
Qed.

(** A stream that does not begin with a section header block. The editor
    hands nothing to the sink until 12 octets have arrived, and from then
    on the sink holds the stream as it came, whatever the cut of the
    stream into messages: nothing is changed, lost or reordered. *)
Theorem stream_without_header_block (w : list byte) t filter noprom msgs :
  take 4 (concat msgs) <> shb_magic ->
  exists pe',
    capture_loop (NewStreamEditor w t filter noprom) msgs = Ret pe'
    /\ sink pe' = w ++ (if (length (concat msgs) <? 12)%nat
                        then [] else concat msgs)
    /\ shb pe' = (if (length (concat msgs) <? 12)%nat
                  then concat msgs else [])
    /\ passThrough pe' = negb (length (concat msgs) <? 12)%nat.
Proof.
  intros Hm.
  destruct (capture_loop_no_header msgs (NewStreamEditor w t filter noprom))
    as (pe' & Hr & Hc); try done; [cbn; lia|].
  exists pe'. split; [exact Hr|].
  cbn [NewStreamEditor shb sink app] in Hc.
  destruct (length (concat msgs) <? 12)%nat; cbn [negb].
  - destruct Hc as (-> & -> & ->). by rewrite app_nil_r.
  - by destruct Hc as (-> & -> & ->).
Qed.

Lemma capture_loop_zero_length msgs : forall pe,
  passThrough pe = false -> shbLen pe = 0 ->
  take 8 (shb pe ++ concat msgs) = shb_magic ++ [x00; x00; x00; x00] ->
  exists pe', capture_loop pe msgs = Ret pe'
    /\ sink pe' = sink pe /\ shb pe' = shb pe ++ concat msgs
    /\ passThrough pe' = false.
Proof.
  induction msgs as [|b msgs IH]; intros pe Hp Hl Hm.
  - exists pe. cbn [capture_loop concat]. by rewrite app_nil_r.
  - cbn [capture_loop concat] in *. rewrite app_assoc in Hm |- *.
    destruct (decide (length (shb pe ++ b) < 12)%nat) as [Hs|Hs].
    + rewrite (Write_Buffer _ _ _ _ (process_buffering pe b Hp Hl Hs)).
      cbn [mbind result_bind fst snd].
      destruct (IH (set_sink (set_shb pe (shb pe ++ b))
                      (sink (set_shb pe (shb pe ++ b)) ++ [])))
        as (pe' & Hr & Hc); try done.
      exists pe'. split; [exact Hr|].
      cbn [set_sink set_shb shb sink] in Hc. by rewrite app_nil_r in Hc.
    + assert (H8 : take 8 (shb pe ++ b) = shb_magic ++ [x00; x00; x00; x00]).
      { rewrite take_app_le in Hm by lia. done. }
      destruct (process_zero_length pe b Hp Hl ltac:(lia) H8)
        as (pe1 & Hr1 & Hp1 & Hl1 & Hb1 & Hs1).
      rewrite (Write_Buffer _ _ _ _ Hr1).
      cbn [mbind result_bind fst snd].
      destruct (IH (set_sink pe1 (sink pe1 ++ [])))
        as (pe' & Hr & Hc); try done.
      { cbn [set_sink shb]. by rewrite Hb1. }
      exists pe'. split; [exact Hr|].
      cbn [set_sink shb sink] in Hc.
      by rewrite app_nil_r, Hb1, Hs1 in Hc.
Qed.

(** A stream that begins with a section header block declaring the block
    length 0. The editor takes the length for not yet known, reads it
    again at every message and never finds the block complete: it keeps
    every octet of the stream and the sink never gets one, whatever
    follows and however long the stream. *)
Theorem stream_with_zero_length_block (w : list byte) t filter noprom msgs :
  take 8 (concat msgs) = shb_magic ++ [x00; x00; x00; x00] ->
  exists pe',
    capture_loop (NewStreamEditor w t filter noprom) msgs = Ret pe'
    /\ sink pe' = w /\ shb pe' = concat msgs /\ passThrough pe' = false.
Proof.
  intros Hm.
  by apply (capture_loop_zero_length msgs
              (NewStreamEditor w t filter noprom)).
Qed.

End StreamFacts.

(** A stream of 13 octets that is no pcapng stream, in two messages. *)
Definition not_pcapng : list (list byte) :=
  [[x47; x49; x46; x38; x39]; [x61; x01; x00; x01; x00; x80; x00; x00]].

Lemma stream_without_header_block_witness :
  exists pe',
    capture_loop (fun _ => None)
      (pcapng.NewStreamEditor [] None EmptyString false) not_pcapng
    = pcapng.Ret pe'
    /\ pcapng.sink pe'
       = [] ++ (if (length (concat not_pcapng) <? 12)%nat
                then [] else concat not_pcapng)
    /\ pcapng.shb pe'
       = (if (length (concat not_pcapng) <? 12)%nat
          then concat not_pcapng else [])
    /\ pcapng.passThrough pe' = negb (length (concat not_pcapng) <? 12)%nat.
Proof.
  apply (stream_without_header_block (fun _ => None) [] None EmptyString
           false not_pcapng).
  vm_compute. discriminate.
Defined.

(** A section header block that declares the length 0, in big-endian
    order, cut after 5 octets, and a packet block behind it. *)
Definition zero_length_stream : list (list byte) :=
  [[x0a; x0d; x0d; x0a; x00]; [x00; x00; x00; x1a; x2b; x3c; x4d];
   [x00; x01; x00; x00; xff; xff; xff; xff; xff; xff; xff; xff];
   [x00; x00; x00; x00; x00; x00; x00; x06; x00; x00; x00; x0c]].

Lemma stream_with_zero_length_block_witness :
  exists pe',
    capture_loop (fun _ => None)
      (pcapng.NewStreamEditor [] None EmptyString false) zero_length_stream
    = pcapng.Ret pe'
    /\ pcapng.sink pe' = [] /\ pcapng.shb pe' = concat zero_length_stream
    /\ pcapng.passThrough pe' = false.
Proof.
  apply (stream_with_zero_length_block (fun _ => None) [] None EmptyString
           false zero_length_stream).
  vm_compute. reflexivity.
Defined.

(* ===================================================================== *)
(** * The rewrite of a well-formed section header block                   *)
(* ===================================================================== *)

Section BlockFacts.
Import pcapng.

Variable yaml_Marshal : ContainerInfo -> option (list byte).

(** An option on the wire: code, length, value, zero padding to the next
    multiple of 4. *)
Definition wire (e : ByteOrder) (o : Option) : list byte :=
  enc 2 e (Code o) ++ enc 2 e (Z.of_nat (length (Value o)))
    ++ Value o ++ replicate (padlen (length (Value o))) x00.


Definition end_of_options : list byte := [x00; x00; x00; x00].

(** The options of a block on the wire, with or without the
    end-of-options mark. *)
Definition wire_options (e : ByteOrder) (opts : list Option) (term : bool)
  : list byte :=
  concat (map (wire e) opts) ++ (if term then end_of_options else []).

(** A section header block: block type, total length, byte-order magic,
    version, section length, options, total length again. *)
Definition block (e : ByteOrder) (major minor seclen : Z)
    (opts : list Option) (term : bool) : list byte :=
  let body := wire_options e opts term in
  let len := Z.of_nat (28 + length body) in
  shb_magic ++ enc 4 e len ++ enc 4 e 0x1a2b3c4d
    ++ enc 2 e major ++ enc 2 e minor ++ enc 8 e seclen
    ++ body ++ enc 4 e len.



Lemma length_wire e o : length (wire e o) = round_up4 (4 + length (Value o)).
Proof.
  unfold wire. rewrite !length_app, !length_enc, length_replicate.
  rewrite round_up4_spec. unfold padlen.
  replace ((4 + length (Value o)) mod 4)%nat
    with (length (Value o) mod 4)%nat; [lia|].
  replace (4 + length (Value o))%nat
    with (length (Value o) + 1 * 4)%nat by lia.
  by rewrite Nat.Div0.mod_add.
Qed.

















Lemma slice_field (pre x post : list byte) lo hi :
  lo = length pre -> hi = (lo + length x)%nat ->
  slice (pre ++ x ++ post) lo hi = Ret x.
Proof.
  intros -> ->. rewrite slice_ok by (rewrite ?length_app; lia).
  rewrite drop_app_length.
  replace (length pre + length x - length pre)%nat with (length x) by lia.
  by rewrite take_app_length.
Qed.


(** Where the fields of a block lie. *)
Lemma block_layout e major minor seclen opts term rest :
  let buf := block e major minor seclen opts term ++ rest in
  let body := wire_options e opts term in
  length (block e major minor seclen opts term) = (28 + length body)%nat
  /\ slice buf 12 14 = Ret (enc 2 e major)
  /\ slice buf 14 16 = Ret (enc 2 e minor)
  /\ slice buf 16 24 = Ret (enc 8 e seclen)
  /\ drop 24 buf
     = body ++ enc 4 e (Z.of_nat (28 + length body)) ++ rest
  /\ drop (28 + length body) buf = rest.
Proof.
  intros buf body. subst buf. unfold block. cbn zeta. fold body.
  set (len := Z.of_nat (28 + length body)).
  assert (Hl : forall n v, length (enc n e v) = n) by (intros; apply length_enc).
  assert (Hm : length shb_magic = 4%nat) by done.
  set (a := shb_magic) in *. set (b := enc 4 e len) in *.
  set (c := enc 4 e 439041101). set (d := enc 2 e major).
  set (f := enc 2 e minor). set (g := enc 8 e seclen).
  assert (Hb : length b = 4%nat) by apply Hl.
  assert (Hc : length c = 4%nat) by apply Hl.
  assert (Hd : length d = 2%nat) by apply Hl.
  assert (Hf : length f = 2%nat) by apply Hl.
  assert (Hg : length g = 8%nat) by apply Hl.
  clearbody a b c d f g. clear Hl.
  rewrite <- !app_assoc.
  split; [rewrite !length_app; lia|].
  split.
  { rewrite (app_assoc a), (app_assoc (a ++ b)).
    apply slice_field; rewrite ?length_app; lia. }
  split.
  { rewrite (app_assoc a), (app_assoc (a ++ b)), (app_assoc ((a ++ b) ++ c)).
    apply slice_field; rewrite ?length_app; lia. }
  split.
  { rewrite (app_assoc a), (app_assoc (a ++ b)), (app_assoc ((a ++ b) ++ c)),
      (app_assoc (((a ++ b) ++ c) ++ d)).
    apply slice_field; rewrite ?length_app; lia. }
  split.
  { rewrite (app_assoc a), (app_assoc (a ++ b)), (app_assoc ((a ++ b) ++ c)),
      (app_assoc (((a ++ b) ++ c) ++ d)),
      (app_assoc ((((a ++ b) ++ c) ++ d) ++ f)).
    apply drop_app_length'. rewrite !length_app. lia. }
  rewrite !app_assoc. apply drop_app_length'. rewrite !length_app. lia.
Qed.


Section Rewrite.
Context {W : Type}.
Implicit Types pe : StreamEditor (W := W).




(** The first 12 octets of a block of [len] octets in the byte order
    [e]. *)
Definition block_start (e : ByteOrder) (len : Z) : list byte :=
  shb_magic ++ enc 4 e len ++ enc 4 e 0x1a2b3c4d.

Lemma shbLenEndianness_block_start pe e len tail :
  0 <= len < 2 ^ 32 ->
  shb pe = block_start e len ++ tail ->
  shbLenEndianness pe = Ret (true, set_framing pe e len).
Proof.
  intros Hl Hs. unfold shbLenEndianness. rewrite Hs. unfold block_start.
  rewrite <- !app_assoc.
  assert (H04 : slice (shb_magic ++ enc 4 e len ++ enc 4 e 439041101 ++ tail)
                      0 4 = Ret shb_magic)
    by (by apply (slice_field [] shb_magic)).
  assert (H48 : slice (shb_magic ++ enc 4 e len ++ enc 4 e 439041101 ++ tail)
                      4 8 = Ret (enc 4 e len))
    by (apply slice_field; rewrite ?length_enc; done).
  assert (H812 : slice (shb_magic ++ enc 4 e len ++ enc 4 e 439041101 ++ tail)
                       8 12 = Ret (enc 4 e 439041101)).
  { rewrite (app_assoc shb_magic).
    apply slice_field; rewrite ?length_app, ?length_enc; done. }
  rewrite H04, H48, H812.
  cbn [mbind result_bind].
  change (bytes_Equal shb_magic [x0a; x0d; x0d; x0a]) with true.
  cbn [negb].
  replace (if bytes_Equal (enc 4 e 439041101) [x1a; x2b; x3c; x4d]
           then BigEndian else LittleEndian) with e by (by destruct e).
  change Uint32 with (UintN 4).
  rewrite UintN_enc_exact by (change (2 ^ (8 * Z.of_nat 4)) with (2 ^ 32); lia).
  done.
Qed.

(** The length is read as soon as 12 octets are there, and the block is
    rewritten as soon as it is complete. *)
Lemma process_block_start pe b e len tail :
  passThrough pe = false -> shbLen pe = 0 ->
  0 < len < 2 ^ 32 ->
  shb pe ++ b = block_start e len ++ tail ->
  Z.of_nat (length (shb pe ++ b)) < 2 ^ 32 ->
  process yaml_Marshal pe b
  = if len <=? Z.of_nat (length (shb pe ++ b))
    then processSHB yaml_Marshal (set_framing (set_shb pe (shb pe ++ b)) e len)
    else Ret ([], set_framing (set_shb pe (shb pe ++ b)) e len).
Proof.
  intros Hp Hl Hlen Hs Hn. unfold process. rewrite Hp.
  cbn [set_shb shb shbLen]. rewrite Hl. cbn [Z.eqb andb].
  replace (12 <=? length (shb pe ++ b))%nat with true.
  2:{ symmetry. apply Nat.leb_le. rewrite Hs. unfold block_start.
      rewrite !length_app, !length_enc. cbn [length shb_magic]. lia. }
  rewrite (shbLenEndianness_block_start _ e len tail) by (done || lia).
  cbn [mbind result_bind fst snd negb set_framing shbLen shb set_shb].
  replace (len =? 0) with false by (symmetry; apply Z.eqb_neq; lia).
  rewrite Z.mod_small by lia. cbn [negb andb].
  done.
Qed.

Lemma process_known_length pe b :
  passThrough pe = false -> shbLen pe <> 0 ->
  Z.of_nat (length (shb pe ++ b)) < 2 ^ 32 ->
  process yaml_Marshal pe b
  = if shbLen pe <=? Z.of_nat (length (shb pe ++ b))
    then processSHB yaml_Marshal (set_shb pe (shb pe ++ b))
    else Ret ([], set_shb pe (shb pe ++ b)).
Proof.
  intros Hp Hl Hn. unfold process. rewrite Hp.
  cbn [set_shb shb shbLen].
  replace (shbLen pe =? 0) with false by (symmetry; by apply Z.eqb_neq).
  cbn [andb mbind result_bind fst snd negb shbLen shb set_shb].
  replace (shbLen pe =? 0) with false by (symmetry; by apply Z.eqb_neq).
  rewrite Z.mod_small by lia. done.
Qed.


End Rewrite.

Implicit Types pe : StreamEditor (W := list byte).

(** The editor while it collects a block of [len] octets in the byte
    order [e]: before the length is read, or after. *)
Definition collecting (e : ByteOrder) (len : Z) pe : Prop :=
  passThrough pe = false
  /\ Z.of_nat (length (shb pe)) < len
  /\ (shbLen pe = 0 \/ (shbLen pe = len /\ Endian pe = Some e)).

Definition same_target pe pe' : Prop :=
  container pe' = container pe
  /\ captureFilter pe' = captureFilter pe
  /\ noProm pe' = noProm pe.


Lemma block_begins e major minor seclen opts term :
  exists tail,
    block e major minor seclen opts term
    = block_start e (Z.of_nat (length (block e major minor seclen opts term)))
        ++ tail.
Proof.
  destruct (block_layout e major minor seclen opts term []) as (Hbl & _).
  cbn zeta in Hbl. rewrite Hbl. unfold block, block_start. cbn zeta.
  eexists. rewrite <- !app_assoc. reflexivity.
Qed.

Lemma prefix_block_start (p q : list byte) e len tail :
  p ++ q = block_start e len ++ tail -> (12 <= length p)%nat ->
  exists tail', p = block_start e len ++ tail'.
Proof.
  intros Hpq Hp. exists (drop 12 p).
  assert (Hb : length (block_start e len) = 12%nat)
    by (unfold block_start; rewrite !length_app, !length_enc; done).
  rewrite <- (take_drop 12 p) at 1. f_equal.
  rewrite <- (take_app_le p q) by lia. rewrite Hpq.
  by rewrite take_app_length'.
Qed.

(** A message that leaves the block incomplete is kept and nothing is
    written to the sink. *)
Lemma Write_held_back pe b e len tail q :
  collecting e len pe -> 0 < len < 2 ^ 32 ->
  Z.of_nat (length (shb pe ++ b)) < len ->
  (shb pe ++ b) ++ q = block_start e len ++ tail ->
  exists pe1,
    Write yaml_Marshal pe b = Ret ((Z.of_nat (length b), None), pe1)
    /\ collecting e len pe1 /\ sink pe1 = sink pe
    /\ shb pe1 = shb pe ++ b /\ same_target pe pe1.
Proof.
  intros (Hp & Hs & Hl) Hlen Hn Hq.
  destruct (decide (length (shb pe ++ b) < 12)%nat) as [H12|H12].
  - destruct Hl as [Hl|[Hl HE]].
    + rewrite (Write_Buffer _ _ _ _ _
                 (process_buffering yaml_Marshal pe b Hp Hl H12)).
      eexists. split; [reflexivity|].
      cbn [set_sink set_shb sink shb]. rewrite app_nil_r.
      repeat split; try done. by left.
    + erewrite Write_Buffer.
      2:{ rewrite process_known_length by (done || lia).
          replace (shbLen pe <=? _) with false
            by (symmetry; apply Z.leb_gt; lia).
          reflexivity. }
      eexists. split; [reflexivity|].
      cbn [set_sink set_shb sink shb]. rewrite app_nil_r.
      repeat split; try done. by right.
  - destruct (prefix_block_start _ _ _ _ _ Hq ltac:(lia)) as [tail' Ht].
    destruct Hl as [Hl|[Hl HE]].
    + erewrite Write_Buffer.
      2:{ rewrite (process_block_start pe b e len tail') by (done || lia).
          replace (len <=? _) with false by (symmetry; apply Z.leb_gt; lia).
          reflexivity. }
      eexists. split; [reflexivity|].
      cbn [set_sink set_framing set_shb sink shb]. rewrite app_nil_r.
      repeat split; try done. by right.
    + erewrite Write_Buffer.
      2:{ rewrite process_known_length by (done || lia).
          replace (shbLen pe <=? _) with false
            by (symmetry; apply Z.leb_gt; lia).
          reflexivity. }
      eexists. split; [reflexivity|].
      cbn [set_sink set_shb sink shb]. rewrite app_nil_r.
      repeat split; try done. by right.
Qed.

Lemma capture_loop_held_back e len tail msgs : forall pe q,
  collecting e len pe -> 0 < len < 2 ^ 32 ->
  Z.of_nat (length (shb pe ++ concat msgs)) < len ->
  (shb pe ++ concat msgs) ++ q = block_start e len ++ tail ->
  exists pe', capture_loop yaml_Marshal pe msgs = Ret pe'
    /\ sink pe' = sink pe /\ shb pe' = shb pe ++ concat msgs
    /\ passThrough pe' = false.
Proof.
  induction msgs as [|b msgs IH]; intros pe q Hco Hlen Hn Hq.
  - exists pe. cbn [capture_loop concat]. rewrite app_nil_r.
    by destruct Hco as (? & _).
  - cbn [capture_loop concat] in *. rewrite app_assoc in Hn, Hq |- *.
    destruct (Write_held_back pe b e len tail (concat msgs ++ q))
      as (pe1 & Hw & Hc1 & Hs1 & Hb1 & _); try done.
    { rewrite length_app in Hn. lia. }
    { by rewrite app_assoc. }
    rewrite Hw. cbn [mbind result_bind fst snd].
    destruct (IH pe1 q) as (pe' & Hr & Hs & Hb & Hp); try done.
    { by rewrite Hb1. }
    { by rewrite Hb1. }
    exists pe'. by rewrite Hr, Hs, Hb, Hs1, Hb1.
Qed.




(** A stream that ends inside a section header block: the sink gets
    nothing, the editor keeps what has come. *)
Theorem stream_with_incomplete_block (w : list byte) t filter noprom msgs
    e major minor seclen opts term more :
  concat msgs ++ more = block e major minor seclen opts term ->
  more <> [] ->
  Z.of_nat (length (block e major minor seclen opts term)) < 2 ^ 32 ->
  exists pe',
    capture_loop yaml_Marshal (NewStreamEditor w t filter noprom) msgs
    = Ret pe'
    /\ sink pe' = w /\ shb pe' = concat msgs /\ passThrough pe' = false.
Proof.
  intros Hs Hm Hn.
  destruct (block_begins e major minor seclen opts term) as [btail Hbt].
  destruct (block_layout e major minor seclen opts term []) as (Hbl & _).
  cbn zeta in Hbl.
  assert (Hlt : (length (concat msgs)
                 < length (block e major minor seclen opts term))%nat).
  { rewrite <- Hs, length_app. destruct more; [done|cbn; lia]. }
  apply (capture_loop_held_back e
           (Z.of_nat (length (block e major minor seclen opts term)))
           btail msgs (NewStreamEditor w t filter noprom) more).
  - split; [done|]. split; [|by left].
    cbn [NewStreamEditor shb length]. lia.
  - lia.
  - cbn [NewStreamEditor shb app]. lia.
  - cbn [NewStreamEditor shb app]. by rewrite Hs.
Qed.


End BlockFacts.

(** The YAML of the zero target, as gopkg.in/yaml.v3 writes it: three
    lines with empty quoted strings. *)
Definition yaml_zero : list byte :=
  list_byte_of_string "container-name: " ++ [x22; x22; x0a]
    ++ list_byte_of_string "container-type: " ++ [x22; x22; x0a]
    ++ list_byte_of_string "node-name: " ++ [x22; x22; x0a].

(** The comment [ABC] and the block of the package test that carries
    it, with 5 octets behind, cut into three messages. *)
Definition comment_ABC : pcapng.Option :=
  {| pcapng.Code := 1; pcapng.Value := [x41; x42; x43] |}.

Definition test_stream : list byte :=
  [x0a; x0d; x0d; x0a; x00; x00; x00; x24; x1a; x2b; x3c; x4d;
   x00; x01; x00; x00; xff; xff; xff; xff; xff; xff; xff; xff;
   x00; x01; x00; x03; x41; x42; x43; x00; x00; x00; x00; x24;
   x01; x02; x03; x04; x05].



Lemma stream_with_incomplete_block_witness :
  exists pe',
    capture_loop (fun _ => Some yaml_zero)
      (pcapng.NewStreamEditor [] None EmptyString false)
      [take 7 test_stream; take 20 (drop 7 test_stream)]
    = pcapng.Ret pe'
    /\ pcapng.sink pe' = []
    /\ pcapng.shb pe'
       = concat [take 7 test_stream; take 20 (drop 7 test_stream)]
    /\ pcapng.passThrough pe' = false.
Proof.
  apply (stream_with_incomplete_block (fun _ => Some yaml_zero) [] None
           EmptyString false
           [take 7 test_stream; take 20 (drop 7 test_stream)]
           pcapng.BigEndian 1 0 (2 ^ 64 - 1) [comment_ABC] false
           (take 9 (drop 27 test_stream))).
  - vm_compute. reflexivity.
  - vm_compute. discriminate.
  - vm_compute. reflexivity.
Defined.



(* ===================================================================== *)
(** * The target information in the comment                               *)
(* ===================================================================== *)

Section CommentFacts.
Import pcapng.
Local Open Scope nat_scope.

Lemma length_targetmarker : length targetmarker = 33.
Proof. reflexivity. Qed.

Lemma HasPrefix_app s p : HasPrefix s p = true <-> exists t, s = p ++ t.
Proof.
  revert s. induction p as [|y p IH]; intros s.
  - split; [intros _; by exists s|intros _; by destruct s].
  - destruct s as [|x s]; cbn.
    + split; [done|]. by intros [t Ht].
    + rewrite andb_true_iff, IH. split.
      * intros [Hx [t ->]]. exists t. by rewrite (byte_dec_bl _ _ Hx).
      * intros [t [= -> ->]]. split; [by apply byte_dec_lb|by exists t].
Qed.

Lemma HasPrefix_targetmarker_head s :
  HasPrefix s targetmarker = true -> s !! 0 = Some x2d.
Proof. intros [t ->]%HasPrefix_app. reflexivity. Qed.

(** What a match of [markerstart] is: the marker text at the very
    beginning, or a newline with the marker text behind it. *)
Lemma markerstart_scan_sound s : forall i a b,
  markerstart_scan i s = Some (a, b) ->
  i <= a /\ b = a + 34 /\ s !! (a - i) = Some nl
  /\ HasPrefix (drop (a - i + 1) s) targetmarker = true.
Proof.
  induction s as [|c s IH]; intros i a b; [done|].
  cbn [markerstart_scan]. change (length targetmarker) with 33.
  destruct (Byte.eqb c nl && HasPrefix s targetmarker) eqn:E.
  - intros [= <- <-]. apply andb_prop in E as [Hc Hp].
    rewrite Nat.sub_diag.
    repeat split; [lia|lia|by rewrite (byte_dec_bl _ _ Hc)|done].
  - intros Hr. apply IH in Hr as (Hi & -> & Hl & Hp).
    replace (a - i) with (S (a - S i)) by lia.
    repeat split; [lia|done|done].
Qed.

(** The start of the target information in the comment, as
    [processSHB] takes it from the match: behind the newline of the
    match if there is one. *)
Definition info_start (comment : list byte) (start0 : nat) : nat :=
  match comment !! start0 with
  | Some c => if Byte.eqb c nl then S start0 else start0
  | None => start0
  end.

Lemma markerstart_sound s a b :
  markerstart s = Some (a, b) ->
  let k := info_start s a in
  b = k + 33 /\ HasPrefix (drop k s) targetmarker = true
  /\ (k = 0 \/ s !! (k - 1) = Some nl).
Proof.
  unfold markerstart, info_start. destruct (HasPrefix s targetmarker) eqn:E.
  - intros [= <- <-]. rewrite (HasPrefix_targetmarker_head _ E).
    cbn. by repeat split; [|left].
  - intros Hr. apply markerstart_scan_sound in Hr as (_ & -> & Hl & Hp).
    rewrite Nat.sub_0_r in Hl, Hp. rewrite Hl.
    change (Byte.eqb nl nl) with true. cbn zeta.
    replace (a + 1) with (S a) in Hp by lia.
    repeat split; [lia|done|right]. by rewrite Nat.sub_1_r.
Qed.

Lemma markerend_scan_sound s : forall i a b,
  markerend_scan i s = Some (a, b) -> i <= a /\ a - i + 4 <= length s.
Proof.
  induction s as [|c s IH]; intros i a b; [done|].
  cbn [markerend_scan].
  assert (Hrec : markerend_scan (S i) s = Some (a, b) ->
                 i <= a /\ a - i + 4 <= length (c :: s)).
  { intros Hr. apply IH in Hr. cbn [length]. lia. }
  destruct (Byte.eqb c nl && HasPrefix s (list_byte_of_string "---")) eqn:E;
    [|done].
  apply andb_prop in E as [_ [t ->]%HasPrefix_app].
  destruct (drop 3 _) as [|d ?] eqn:Ed.
  - intros [= <- <-]. cbn [length]. rewrite length_app. cbn. lia.
  - destruct (Byte.eqb d nl); [|done].
    intros [= <- <-]. cbn [length]. rewrite length_app. cbn. lia.
Qed.

Lemma cut_target_info_unfold comment s0 s1 :
  markerstart comment = Some (s0, s1) ->
  cut_target_info comment
  = match markerend (drop s1 comment) with
    | Some (e0, _) =>
        take (info_start comment s0) comment
          ++ drop (info_start comment s0 + e0) comment
    | None => take (info_start comment s0) comment
    end.
Proof. intros Hs. unfold cut_target_info, info_start. by rewrite Hs. Qed.

(** With an end marker after the target information, the code cuts
    from the start of the marker text at [k] to [k + e0], where [e0] is
    the offset of the end marker counted from the END of the marker
    text: the end marker lies at [k + 33 + e0], so the cut stops 33
    octets before it, and exactly [e0] octets are removed. *)
Theorem cut_target_info_cuts_short comment s0 s1 e0 e1 :
  markerstart comment = Some (s0, s1) ->
  markerend (drop s1 comment) = Some (e0, e1) ->
  let k := info_start comment s0 in
  HasPrefix (drop k comment) targetmarker = true
  /\ s1 = k + 33
  /\ k + 33 + e0 + 4 <= length comment
  /\ cut_target_info comment = take k comment ++ drop (k + e0) comment
  /\ length (cut_target_info comment) + e0 = length comment.
Proof.
  intros Hs He k.
  rewrite (cut_target_info_unfold _ _ _ Hs), He. fold k.
  destruct (markerstart_sound _ _ _ Hs) as (Hs1 & Hp & Hk). fold k in Hs1, Hp.
  apply markerend_scan_sound in He as [_ He].
  rewrite Nat.sub_0_r, length_drop in He.
  repeat split; try done; [lia|].
  rewrite length_app, length_take, length_drop. lia.
Qed.

(** Without an end marker the comment is cut at the start of the marker
    text, which is the beginning of the comment or of a line. *)
Theorem cut_target_info_without_end_marker comment s0 s1 :
  markerstart comment = Some (s0, s1) ->
  markerend (drop s1 comment) = None ->
  let k := info_start comment s0 in
  cut_target_info comment = take k comment
  /\ HasPrefix (drop k comment) targetmarker = true
  /\ (k = 0 \/ comment !! (k - 1) = Some nl).
Proof.
  intros Hs He k.
  rewrite (cut_target_info_unfold _ _ _ Hs), He. fold k.
  destruct (markerstart_sound _ _ _ Hs) as (Hs1 & Hp & Hk).
  by repeat split.
Qed.

Lemma markerstart_scan_complete s : forall i j,
  s !! j = Some nl -> HasPrefix (drop (S j) s) targetmarker = true ->
  markerstart_scan i s <> None.
Proof.
  induction s as [|c s IH]; intros i j Hj Hp; [done|].
  cbn [markerstart_scan].
  destruct (Byte.eqb c nl && HasPrefix s targetmarker) eqn:E; [done|].
  destruct j as [|j].
  - change (Some c = Some nl) in Hj. injection Hj as ->.
    change (HasPrefix s targetmarker = true) in Hp.
    rewrite Hp in E. by rewrite (byte_dec_lb eq_refl) in E.
  - by apply (IH (S i) j).
Qed.

Lemma HasSuffix_nl s : HasSuffix s [nl] = true -> last s = Some nl.
Proof.
  unfold HasSuffix. intros [Hl He]%andb_prop.
  apply bytes_Equal_eq in He. apply Nat.leb_le in Hl. cbn [length] in *.
  rewrite <- (take_drop (length s - 1) s), He.
  by rewrite last_snoc.
Qed.

Section NewComment.
Variable yaml_Marshal : ContainerInfo -> option (list byte).
Context {W : Type}.
Implicit Types pe : StreamEditor (W := W).

(** In the comment that [processSHB] builds, the marker text stands at
    the beginning or at the beginning of a line, with the YAML document
    (if [yaml.Marshal] gave one) behind it to the end. *)
Lemma new_comment_shape pe fc :
  exists pre y,
    new_comment yaml_Marshal pe fc = pre ++ targetmarker ++ y
    /\ (pre = [] \/ last pre = Some nl).
Proof.
  unfold new_comment.
  set (c0 := match fc with Some fc' => cut_target_info (String fc') | None => [] end).
  set (ci := {| ContainerName := _ |}).
  exists (if negb (bytes_Equal c0 []) && negb (HasSuffix c0 [nl])
          then c0 ++ [nl] else c0),
         (match yaml_Marshal ci with Some y => y | None => [] end).
  split.
  - destruct (yaml_Marshal ci); [by rewrite <- app_assoc|].
    by rewrite app_nil_r.
  - destruct (bytes_Equal c0 []) eqn:E0; cbn [negb andb].
    + left. by apply bytes_Equal_eq.
    + right. destruct (HasSuffix c0 [nl]) eqn:Es; cbn [negb].
      * by apply HasSuffix_nl.
      * by rewrite last_snoc.
Qed.

(** The editor recognises its own work: in every comment that
    [processSHB] builds, [markerstart] finds a match, so that the next
    editor in a chain replaces the target information instead of adding
    a second one. *)
Theorem new_comment_is_recognised pe fc :
  markerstart (new_comment yaml_Marshal pe fc) <> None.
Proof.
  destruct (new_comment_shape pe fc) as (pre & y & -> & Hpre).
  unfold markerstart.
  destruct (HasPrefix _ targetmarker) eqn:E; [done|].
  destruct Hpre as [->|Hl].
  - exfalso. cbn [app] in E.
    assert (HasPrefix (targetmarker ++ y) targetmarker = true)
      by (apply HasPrefix_app; by exists y).
    congruence.
  - destruct pre as [|p pre _] using rev_ind; [done|].
    rewrite last_snoc in Hl. injection Hl as ->.
    apply (markerstart_scan_complete _ 0 (length pre)).
    + rewrite <- !app_assoc.
      by apply (list_lookup_middle pre (targetmarker ++ y) nl).
    + rewrite drop_app_length' by (rewrite length_app; cbn; lia).
      apply HasPrefix_app. by exists y.
Qed.

End NewComment.
End CommentFacts.

(** A comment that begins with old target information, followed by the
    end marker and a second document. *)
Definition comment_two_documents : list byte :=
  pcapng.targetmarker ++ list_byte_of_string "a: b"
    ++ [pcapng.nl] ++ list_byte_of_string "---" ++ [pcapng.nl]
    ++ list_byte_of_string "x: y".

Lemma cut_target_info_cuts_short_witness :
  let k := info_start comment_two_documents 0 in
  pcapng.HasPrefix (drop k comment_two_documents) pcapng.targetmarker = true
  /\ 33%nat = (k + 33)%nat
  /\ (k + 33 + 4 + 4 <= length comment_two_documents)%nat
  /\ pcapng.cut_target_info comment_two_documents
     = take k comment_two_documents ++ drop (k + 4) comment_two_documents
  /\ (length (pcapng.cut_target_info comment_two_documents) + 4
      = length comment_two_documents)%nat.
Proof.
  apply (cut_target_info_cuts_short comment_two_documents 0 33 4 9).
  - vm_compute. reflexivity.
  - vm_compute. reflexivity.
Defined.

(** The comment [ABC] with target information behind it to the end. *)
Definition comment_with_info : list byte :=
  list_byte_of_string "ABC" ++ [pcapng.nl] ++ pcapng.targetmarker
    ++ list_byte_of_string "a: b" ++ [pcapng.nl].

Lemma cut_target_info_without_end_marker_witness :
  let k := info_start comment_with_info 3 in
  pcapng.cut_target_info comment_with_info = take k comment_with_info
  /\ pcapng.HasPrefix (drop k comment_with_info) pcapng.targetmarker = true
  /\ (k = 0%nat \/ comment_with_info !! (k - 1)%nat = Some pcapng.nl).
Proof.
  apply (cut_target_info_without_end_marker comment_with_info 3 37).
  - vm_compute. reflexivity.
  - vm_compute. reflexivity.
Defined.

(* ===================================================================== *)
(** * Lookups in the target cache                                         *)
(* ===================================================================== *)

Section TargetCacheLookupFacts.
Import api csharg.
Context {Ptr : Type} (load : Ptr -> Target).

Implicit Types (l : list Ptr) (idx : gmap targetkey (list (option Ptr))).

(** The targets [OnNode] can mean: those with the node name, prefix and
    name asked for. *)
Definition on_node (node p n : string) (t : Ptr) : bool :=
  String.eqb (NodeName (load t)) node
  && String.eqb (Prefix (load t)) p && String.eqb (Name (load t)) n.

(** The targets filed under the key of a prefix and a name. *)
Definition same_name (p n : string) (t : Ptr) : bool :=
  String.eqb (Prefix (load t)) p && String.eqb (Name (load t)) n.

(** What one round of the loop of [Set] does to the entry under the key
    (prefix, name) for a target with this prefix and name: it appends
    the target or makes the slice, and then, if the target has no node
    name, the second assignment of the round hits the same key and
    replaces the entry by the target alone. *)
Definition file_target (o : option (list (option Ptr))) (t : Ptr)
  : option (list (option Ptr)) :=
  if String.eqb (NodeName (load t)) EmptyString then Some [Some t]
  else extend_entry load o [t].

Lemma Set_body_node_key idx t node p n :
  node <> EmptyString ->
  Set_body load idx t !! {| prefix := p; name := n; nodename := node |}
  = if on_node node p n t then Some [Some t]
    else idx !! {| prefix := p; name := n; nodename := node |}.
Proof.
  intros Hn. unfold Set_body, on_node. cbn [prefix name nodename].
  set (K := {| prefix := p; name := n; nodename := node |}).
  assert (H1 : {| prefix := Prefix (load t); name := Name (load t);
                  nodename := EmptyString |} <> K)
    by (intros E; inversion E; congruence).
  destruct (String.eqb_spec (NodeName (load t)) node) as [E1|E1];
    destruct (String.eqb_spec (Prefix (load t)) p) as [E2|E2];
    destruct (String.eqb_spec (Name (load t)) n) as [E3|E3]; cbn [andb].
  1:{ rewrite E1, E2, E3. fold K. by rewrite lookup_insert_eq. }
  all: rewrite lookup_insert_ne by (intros E; inversion E; congruence);
    destruct (idx !! _); by rewrite lookup_insert_ne.
Qed.

Lemma Set_loop_node_key node p n l : forall idx,
  node <> EmptyString ->
  fold_left (Set_body load) l idx
    !! {| prefix := p; name := n; nodename := node |}
  = match last (List.filter (on_node node p n) l) with
    | Some t => Some [Some t]
    | None => idx !! {| prefix := p; name := n; nodename := node |}
    end.
Proof.
  induction l as [|t l IH]; intros idx Hn; cbn [fold_left List.filter];
    [done|].
  rewrite IH by done. rewrite Set_body_node_key by done.
  destruct (on_node node p n t) eqn:E.
  - destruct (List.filter _ l) as [|t' f] eqn:Ef; [done|].
    change (last (t :: t' :: f)) with (last (t' :: f)).
    destruct (last (t' :: f)) eqn:El; [done|].
    by apply last_None in El.
  - done.
Qed.

(** [OnNode] with a node name, on a cache built by [Set]: the LAST
    target of the list with this node name, prefix and name is found,
    however many there are; none is found only when there is none. *)
Theorem OnNode_after_Set (tc0 : TargetCache) l node p n :
  node <> EmptyString ->
  OnNode (Set_ load tc0 l) node p n
  = Some <$> last (List.filter (on_node node p n) l).
Proof.
  intros Hn. unfold OnNode, Set_. cbn [index].
  rewrite Set_loop_node_key by done. rewrite lookup_empty.
  by destruct (last _).
Qed.

Lemma Set_body_name_key idx t p n :
  Set_body load idx t
    !! {| prefix := p; name := n; nodename := EmptyString |}
  = if same_name p n t
    then file_target
           (idx !! {| prefix := p; name := n; nodename := EmptyString |}) t
    else idx !! {| prefix := p; name := n; nodename := EmptyString |}.
Proof.
  unfold Set_body, same_name, file_target. cbn [prefix name nodename].
  set (K := {| prefix := p; name := n; nodename := EmptyString |}).
  destruct (String.eqb_spec (Prefix (load t)) p) as [E2|E2];
    destruct (String.eqb_spec (Name (load t)) n) as [E3|E3]; cbn [andb].
  1:{ rewrite E2, E3. fold K.
      destruct (String.eqb_spec (NodeName (load t)) EmptyString) as [E1|E1].
      - rewrite E1. fold K. by rewrite lookup_insert_eq.
      - rewrite lookup_insert_ne by (intros E; inversion E; congruence).
        destruct (idx !! K); cbn; rewrite lookup_insert_eq;
          [done|by rewrite app_nil_r]. }
  all: rewrite lookup_insert_ne by (intros E; inversion E; congruence);
    destruct (idx !! _);
    by rewrite lookup_insert_ne by (intros E; inversion E; congruence).
Qed.

Lemma Set_loop_name_key p n l : forall idx,
  fold_left (Set_body load) l idx
    !! {| prefix := p; name := n; nodename := EmptyString |}
  = fold_left file_target (List.filter (same_name p n) l)
      (idx !! {| prefix := p; name := n; nodename := EmptyString |}).
Proof.
  induction l as [|t l IH]; intros idx; cbn [fold_left List.filter]; [done|].
  rewrite IH, Set_body_name_key.
  by destruct (same_name p n t).
Qed.

(** Lookups without a node name, when the last target of the list with
    the prefix and name asked for has no node name itself: this target
    is found, whatever stands before it in the list, be it targets of
    the same name or of another type. [OnNode] hands it out as it is,
    [Pod] if it is a pod. *)
Theorem lookup_finds_last_without_node_name (tc0 : TargetCache) l p n c t :
  List.filter (same_name p n) l = c ++ [t] ->
  NodeName (load t) = EmptyString ->
  OnNode (Set_ load tc0 l) EmptyString p n = Some (Some t)
  /\ (p = EmptyString ->
      Pod load (Set_ load tc0 l) n
      = if String.eqb (Type_ (load t)) "pod" then Some t else None).
Proof.
  intros Hf Hn.
  assert (He : index (Set_ load tc0 l)
                 !! {| prefix := p; name := n; nodename := EmptyString |}
               = Some [Some t]).
  { unfold Set_. cbn [index]. rewrite Set_loop_name_key, Hf, fold_left_app.
    cbn [fold_left]. unfold file_target. by rewrite Hn. }
  split.
  - unfold OnNode. by rewrite He.
  - intros ->. unfold Pod. by rewrite He.
Qed.

(** Lookups without a node name, when every target with the prefix and
    name asked for has a node name: one is found only if it is the only
    one and a pod. A single target of another type is filed in a slice
    of length 10 and never found this way. *)
Theorem lookup_without_node_name (tc0 : TargetCache) l p n :
  (forall t, In t l -> same_name p n t = true ->
             NodeName (load t) <> EmptyString) ->
  OnNode (Set_ load tc0 l) EmptyString p n
  = match List.filter (same_name p n) l with
    | [t] => if String.eqb (Type_ (load t)) "pod" then Some (Some t) else None
    | _ => None
    end.
Proof.
  intros Hl. unfold OnNode, Set_. cbn [index].
  rewrite Set_loop_name_key, lookup_empty.
  assert (Hall : Forall (fun t => NodeName (load t) <> EmptyString)
                   (List.filter (same_name p n) l)).
  { apply List.Forall_forall. intros t [Hin Hs]%filter_In. by apply Hl. }
  assert (Hfold : forall c o,
    Forall (fun t => NodeName (load t) <> EmptyString) c ->
    fold_left file_target c o = extend_entry load o c).
  { clear. induction c as [|t c IH]; intros o Hc.
    - destruct o; cbn; [by rewrite app_nil_r|done].
    - apply Forall_cons in Hc as [Ht Hc]. cbn [fold_left].
      rewrite IH by done. unfold file_target.
      apply String.eqb_neq in Ht. rewrite Ht.
      apply extend_entry_cons. }
  rewrite Hfold by done. cbn [extend_entry].
  destruct (List.filter (same_name p n) l) as [|t0 [|t1 r]]; cbn; [done| |].
  - by destruct (String.eqb (Type_ (load t0)) "pod").
  - by destruct (String.eqb (Type_ (load t0)) "pod").
Qed.

End TargetCacheLookupFacts.

(** Two containers named db under the prefix dind on node n1, and a
    target without node name, as the client of a stand-alone host files
    them when its URL has no port. *)
Definition db_old : api.Target :=
  {| api.Name := "db"; api.Type_ := "docker"; api.NetNS := 4026532010;
     api.NetworkInterfaces := ["lo"%string];
     api.Prefix := "dind"; api.StartTime := 100; api.Pid := 7;
     api.NodeName := "n1"; api.Cluster_ := None;
     api.CaptureService := "svc-n1"; api.CapturePort := 5001 |}.

Definition db_new : api.Target :=
  {| api.Name := "db"; api.Type_ := "docker"; api.NetNS := 4026532011;
     api.NetworkInterfaces := ["lo"%string; "eth0"%string];
     api.Prefix := "dind"; api.StartTime := 900; api.Pid := 8;
     api.NodeName := "n1"; api.Cluster_ := None;
     api.CaptureService := "svc-n1"; api.CapturePort := 5001 |}.

Definition web_local : api.Target :=
  {| api.Name := "web"; api.Type_ := "pod"; api.NetNS := 4026532020;
     api.NetworkInterfaces := ["lo"%string];
     api.Prefix := EmptyString; api.StartTime := 0; api.Pid := 0;
     api.NodeName := EmptyString; api.Cluster_ := None;
     api.CaptureService := EmptyString; api.CapturePort := 0 |}.

Lemma OnNode_after_Set_witness :
  csharg.OnNode (csharg.Set_ id csharg.zero [db_old; web_pod; db_new])
                "n1" "dind" "db"
  = Some <$> last (List.filter (on_node id "n1" "dind" "db")
                               [db_old; web_pod; db_new]).
Proof.
  apply (OnNode_after_Set id csharg.zero [db_old; web_pod; db_new]
           "n1" "dind" "db").
  discriminate.
Defined.

Lemma lookup_finds_last_without_node_name_witness :
  csharg.OnNode (csharg.Set_ id csharg.zero [web_pod; web_dind; web_local])
                EmptyString EmptyString "web"
  = Some (Some web_local)
  /\ (EmptyString = EmptyString ->
      csharg.Pod id (csharg.Set_ id csharg.zero
                       [web_pod; web_dind; web_local]) "web"
      = if String.eqb (api.Type_ (id web_local)) "pod"
        then Some web_local else None).
Proof.
  apply (lookup_finds_last_without_node_name id csharg.zero
           [web_pod; web_dind; web_local] EmptyString "web"
           [web_pod] web_local).
  - vm_compute. reflexivity.
  - reflexivity.
Defined.

Lemma lookup_without_node_name_witness :
  csharg.OnNode (csharg.Set_ id csharg.zero [db_old; web_pod])
                EmptyString "dind" "db"
  = match List.filter (same_name id "dind" "db") [db_old; web_pod] with
    | [t] => if String.eqb (api.Type_ (id t)) "pod"
             then Some (Some t) else None
    | _ => None
    end.
Proof.
  apply (lookup_without_node_name id csharg.zero [db_old; web_pod]
           "dind" "db").
  intros t [<-|[<-|[]]] _; discriminate.
Defined.

(* ===================================================================== *)
(** * CompleteTarget on a cache built by Set                              *)
(* ===================================================================== *)

Section CompleteTargetOnCache.
Import api csharg.

(** [OnNode] reports a nil pointer as found when the entry is a single
    nil, and [CompleteTarget] would dereference it ([*tcached]). An
    index built by [Set] has no such entry, emptied by [Clear] or not:
    [CompleteTarget] returns a target or an error and never panics,
    whatever the descriptor, the heap and the list that was cached. *)
Theorem CompleteTarget_never_panics (load0 : addr -> Target)
    (tc0 : TargetCache) (l : list addr) (s : Store) (t : option addr)
    (opts : option CaptureOptions) :
  let tc := Set_ load0 tc0 l in
  (forall k v, index tc !! k = Some v -> exists p v', v = Some p :: v')
  /\ (CompleteTarget s t opts tc).2 <> Panicked
  /\ (CompleteTarget s t opts (Clear tc)).2 <> Panicked.
Proof.
  intros tc.
  assert (Hhead : forall k v, index tc !! k = Some v ->
                              exists p v', v = Some p :: v').
  { apply (Set_index_head load0 l ∅). intros k v Hk.
    by rewrite lookup_empty in Hk. }
  split; [exact Hhead|].
  assert (Hgen : forall tc' : TargetCache, index tc' = index tc ->
                   (CompleteTarget s t opts tc').2 <> Panicked).
  { intros tc' Hi. unfold CompleteTarget.
    destruct t as [p|]; [|done].
    destruct (String.eqb (CaptureService (load s p)) EmptyString).
    - destruct (String.eqb (Type_ (load s p)) "pod").
      + destruct (Pod _ _ _); [|done]. cbn.
        unfold check_routing. by destruct (ContainsAny _ _).
      + unfold OnNode. rewrite Hi.
        destruct (index tc !! _) as [v|] eqn:E; [|done].
        destruct (Hhead _ _ E) as (q & v' & ->).
        destruct v'; [|done]. cbn.
        unfold check_routing. by destruct (ContainsAny _ _).
    - unfold check_routing. by destruct (ContainsAny _ _). }
  split; by apply Hgen.
Qed.

End CompleteTargetOnCache.

(* ===================================================================== *)
(** * Invariants of the graceful close                                    *)
(* ===================================================================== *)

Section GracefulCloseFacts.
Import websock.
Local Open Scope nat_scope.

(** A goroutine that is about to call [Close] or [Read]. *)
Definition entering (p : pc) : Prop :=
  p = Close_Lock \/ p = Read_ReadMessage.

(** What a goroutine at a program point can rely on. *)
Definition settled (ws : ReadingClientWebsocket) (p : pc) : Prop :=
  match p with
  | Close_select | Close_timeout_Conn_Close | Read_Conn_Close _ _ =>
      Closing ws = true
  | Close_timeout_close | Read_close _ _ =>
      Closing ws = true /\ Conn_open ws = false
  | Close_returned | Read_return _ _ | Read_returned (ErrClose _ _) =>
      closed ws = true
  | _ => True
  end.

(** The invariant: one close frame has been written if and only if the
    close has begun; the completion channel is closed only after the
    transport; and every goroutine is where the state allows. *)
Definition graceful (ws : ReadingClientWebsocket) : Prop :=
  Conn_written ws = (if Closing ws then 1 else 0)
  /\ (closed ws = true -> Conn_open ws = false /\ Closing ws = true)
  /\ forall j q, goroutines ws !! j = Some q -> settled ws q.

Lemma graceful_New gs : Forall entering gs -> graceful (New gs).
Proof.
  intros Hgs. repeat split; try done.
  intros j q Hj. cbn in Hj.
  by destruct (proj1 (Forall_lookup _ _) Hgs _ _ Hj) as [-> | ->].
Qed.

Lemma settled_mono ws ws' q :
  settled ws q ->
  (Closing ws = true -> Closing ws' = true) ->
  (Conn_open ws = false -> Conn_open ws' = false) ->
  (closed ws = true -> closed ws' = true) ->
  settled ws' q.
Proof. destruct q as [| | | | | | | | | | | |[]]; cbn; intuition. Qed.

(** The cases of a step: the goroutine, its program point, and what
    the tests of the step found. *)
Ltac step_cases Hs i Hi :=
  unfold step in Hs;
  destruct (crashed _) eqn:?; [discriminate|];
  match type of Hs with
  | match ?e with _ => _ end = _ => destruct e as [i|i [| | |]|i|i]
  end;
  destruct (goroutines _ !! i) as [[]|] eqn:Hi; try discriminate;
  repeat match type of Hs with
         | (if ?b then _ else _) = _ => destruct b eqn:?; try discriminate
         end;
  injection Hs as <-.

Lemma graceful_step ws e ws' :
  step ws e = Some ws' -> graceful ws -> graceful ws'.
Proof.
  intros Hs (Hw & Hc & Hg).
  step_cases Hs i Hi;
    pose proof (Hg _ _ Hi) as Hme; cbn in Hme;
    unfold graceful, start_closing;
    destruct (Closing ws) eqn:HC;
    cbn [Closing m closed Conn_open Conn_written goroutines crashed
         set_pc set_m Conn_Close close_closed];
    rewrite ?HC;
    (split; [lia|split; [intuition congruence|]]);
    intros j q Hj;
    (apply list_lookup_insert_Some in Hj as [(-> & <- & _)|[Hne Hj]];
     [cbn; rewrite ?HC; intuition congruence
     |apply (settled_mono ws _ q (Hg _ _ Hj)); cbn; rewrite ?HC;
      intuition congruence]).
Qed.

Lemma graceful_run es : forall ws ws',
  run ws es = Some ws' -> graceful ws -> graceful ws'.
Proof.
  induction es as [|e es IH]; intros ws ws'; cbn [run].
  - by intros [= ->].
  - destruct (step ws e) as [ws1|] eqn:Hs; [|done].
    intros Hr Hg. apply (IH ws1); [done|]. by apply (graceful_step ws e).
Qed.

(** Whatever the schedule and the number of goroutines in [Close] and
    [Read]: at most one close frame is written, and a [Close] that has
    returned, like a [Read] that has returned the close error of the
    peer, finds the completion channel closed, the transport closed and
    exactly one close frame written. *)
Theorem graceful_close_is_complete gs es ws :
  Forall entering gs ->
  run (New gs) es = Some ws ->
  Conn_written ws <= 1
  /\ forall i p,
       goroutines ws !! i = Some p ->
       p = Close_returned \/ (exists c t, p = Read_returned (ErrClose c t)) ->
       closed ws = true /\ Conn_open ws = false
       /\ Closing ws = true /\ Conn_written ws = 1.
Proof.
  intros Hgs Hr.
  destruct (graceful_run es _ _ Hr (graceful_New gs Hgs)) as (Hw & Hc & Hg).
  split; [destruct (Closing ws); lia|].
  intros i p Hi Hp.
  assert (Hcl : closed ws = true).
  { pose proof (Hg _ _ Hi) as Hs.
    by destruct Hp as [->|(c & t & ->)]. }
  destruct (Hc Hcl) as [Ho HC]. rewrite HC in Hw. done.
Qed.








End GracefulCloseFacts.

(** [Close] in one goroutine and [Read] in another; the peer
    acknowledges the close frame in time and [Close] gets through on
    the closed channel. *)
Definition peer_acknowledges : list websock.event :=
  [ websock.Step 0;                 (* Close: ws.m.Lock() *)
    websock.Step 0;                 (* Close: Closing = true, close frame, Unlock *)
    websock.Deliver 1 (websock.CloseError 1000 "ciao");
    websock.Step 1;                 (* Read: ws.m.Lock() *)
    websock.Step 1;                 (* Read: already Closing *)
    websock.Step 1;                 (* Read: ws.Conn.Close() *)
    websock.Step 1;                 (* Read: close(ws.closed) *)
    websock.Step 1;                 (* Read: return nil, cerr *)
    websock.Signalled 0 ].          (* Close: case <-ws.closed *)

Lemma graceful_close_is_complete_witness :
  exists ws,
    websock.run (websock.New [websock.Close_Lock; websock.Read_ReadMessage])
                peer_acknowledges = Some ws
    /\ (websock.Conn_written ws <= 1)%nat
    /\ forall i p,
         websock.goroutines ws !! i = Some p ->
         p = websock.Close_returned
         \/ (exists c t, p = websock.Read_returned (websock.ErrClose c t)) ->
         websock.closed ws = true /\ websock.Conn_open ws = false
         /\ websock.Closing ws = true /\ websock.Conn_written ws = 1%nat.
Proof.
  destruct (websock.run
              (websock.New [websock.Close_Lock; websock.Read_ReadMessage])
              peer_acknowledges) as [ws|] eqn:Hr;
    [|vm_compute in Hr; discriminate].
  exists ws. split; [reflexivity|].
  apply (graceful_close_is_complete
           [websock.Close_Lock; websock.Read_ReadMessage]
           peer_acknowledges ws).
  - constructor; [left; reflexivity|constructor; [right; reflexivity|constructor]].
  - exact Hr.
Defined.


(* ===================================================================== *)
(** * The capture service request (sharktank.go)                          *)
(* ===================================================================== *)

Section CaptureService.
Import api csharg.
Local Open Scope string_scope.

(** [json.Marshal] on an [*api.Target]: the text, or [None] for an
    error. *)
Variable json_Marshal : Target -> option string.

(** [http.Header] and [url.Values] are both [map[string][]string],
    here [gmap string (list string)]. [Header.Set] canonicalises the
    key, which leaves the four keys used here as they are written;
    [Values.Set] takes the key as it is. *)
Definition Header_Set (h : gmap string (list string)) (key value : string)
  : gmap string (list string) :=
  <[key := [value]]> h.

Definition Values_Set (v : gmap string (list string)) (key value : string)
  : gmap string (list string) :=
  <[key := [value]]> v.

(** [strings.Join]. *)
Definition Join (elems : list string) (sep : string) : string :=
  String.concat sep elems.

(** [func CaptureServiceHeaders(t *api.Target, opts *CaptureOptions)],
    for non-nil [t] and [opts]; [None] is the error of [json.Marshal]. *)
Definition CaptureServiceHeaders (t : Target) (opts : CaptureOptions)
  : option (gmap string (list string)) :=
  match json_Marshal t with
  | None => None
  | Some ctext =>
      let nifs := Nifs opts in
      let nifs := if Nat.eqb (length nifs) 0 then NetworkInterfaces t
                  else nifs in
      let nifs := if Nat.eqb (length nifs) 0 then ["all"] else nifs in
      let header : gmap string (list string) :=
        <["Clustershark-Nif" := [Join nifs "/"]]>
          (<["Clustershark-Container" := [ctext]]> ∅) in
      let header :=
        if AvoidPromiscuousMode opts
        then Header_Set header "Clustershark-Chaste" EmptyString
        else header in
      let header :=
        if Nat.ltb 0 (String.length (Filter opts))
        then Header_Set header "Clustershark-Filter" (Filter opts)
        else header in
      Some header
  end.

(** [func CaptureServiceQueryParams(t *api.Target,
    opts *CaptureOptions)]. *)
Definition CaptureServiceQueryParams (t : Target) (opts : CaptureOptions)
  : option (gmap string (list string)) :=
  match json_Marshal t with
  | None => None
  | Some ctext =>
      let nifs := Nifs opts in
      let nifs := if Nat.eqb (length nifs) 0 then NetworkInterfaces t
                  else nifs in
      let nifs := if Nat.eqb (length nifs) 0 then ["all"] else nifs in
      let values : gmap string (list string) := ∅ in
      let values := Values_Set values "container" ctext in
      let values := Values_Set values "nif" (Join nifs "/") in
      let values :=
        if AvoidPromiscuousMode opts
        then Values_Set values "chaste" EmptyString
        else values in
      let values :=
        if Nat.ltb 0 (String.length (Filter opts))
        then Values_Set values "filter" (Filter opts)
        else values in
      Some values
  end.

(** The header that stands for a query parameter. *)
Definition header_of_param (k : string) : string :=
  if String.eqb k "container" then "Clustershark-Container"
  else if String.eqb k "nif" then "Clustershark-Nif"
  else if String.eqb k "chaste" then "Clustershark-Chaste"
  else if String.eqb k "filter" then "Clustershark-Filter"
  else k.

Definition params : list string := ["container"; "nif"; "chaste"; "filter"].

(** The headers and the query parameters say the same: the two
    functions fail together, and otherwise every one of the four
    parameters has the value of its header, or is absent as its header
    is, and neither carries anything else. *)
Theorem headers_and_query_agree t opts :
  match CaptureServiceHeaders t opts, CaptureServiceQueryParams t opts with
  | Some h, Some q =>
      (forall k, In k params -> q !! k = h !! header_of_param k)
      /\ (forall k v, q !! k = Some v -> In k params)
      /\ (forall hk v, h !! hk = Some v ->
            exists k, In k params /\ hk = header_of_param k)
  | None, None => True
  | _, _ => False
  end.
Proof.
  unfold CaptureServiceHeaders, CaptureServiceQueryParams.
  destruct (json_Marshal t) as [ctext|]; [|done]. cbn zeta.
  set (nifs := if Nat.eqb (length (if Nat.eqb _ _ then _ else _)) 0
               then _ else _).
  unfold Header_Set, Values_Set, params.
  destruct (AvoidPromiscuousMode opts);
    destruct (Nat.ltb 0 (String.length (Filter opts)));
    (split; [|split]).
  all: match goal with
       | |- forall k, In k _ -> _ =>
           intros k [<-|[<-|[<-|[<-|[]]]]];
           unfold header_of_param; cbn [String.eqb Ascii.eqb Bool.eqb];
           by simplify_map_eq
       | |- forall k v, _ !! k = Some v -> In _ _ =>
           intros k v Hk;
           repeat (apply lookup_insert_Some in Hk as [[<- _]|[_ Hk]];
                   [cbn; auto 10|]);
           by rewrite lookup_empty in Hk
       | |- _ =>
           intros hk v Hk;
           repeat (apply lookup_insert_Some in Hk as [[<- _]|[_ Hk]];
                   [first [by exists "container"; cbn; auto 10
                          |by exists "nif"; cbn; auto 10
                          |by exists "chaste"; cbn; auto 10
                          |by exists "filter"; cbn; auto 10]|]);
           by rewrite lookup_empty in Hk
       end.
Qed.

End CaptureService.

(* ===================================================================== *)
(** * The command line: capture and list (cli/command)                    *)
(* ===================================================================== *)

Module command.
Import api.
Local Open Scope string_scope.

(** ** capture (cli/command/capture/cmd.go) *)

(** The errors of the target lookup of [capture], by their format
    strings: [invalid empty capture target name], [capture target %q
    not found], [capture target %q on node %q not found] and [ambiguous
    capture target %q matches %d targets]. *)
Inductive lookup_error :=
| ErrEmptyName
| ErrNotFound (targetname : string)
| ErrNotFoundOnNode (targetname nodename : string)
| ErrAmbiguous (targetname : string) (n : nat).

(** [for _, tt := range targettypes { ... }] with its two [break]s;
    [tt] is [ty] here. *)
Fixpoint typematch_loop (Type_ : string) (targettypes : list string) : bool :=
  match targettypes with
  | [] => false
  | ty :: targettypes' =>
      if String.eqb Type_ ty then true
      else if String.eqb ty "container"
              && negb (String.eqb Type_ "bindmount")
              && negb (String.eqb Type_ "proc")
              && negb (String.eqb Type_ "pod")
      then true
      else typematch_loop Type_ targettypes'
  end.

(** The value of [typematch] after the [if len(targettypes) != 0]. *)
Definition typematch (t : Target) (targettypes : list string) : bool :=
  if negb (Nat.eqb (length targettypes) 0)
  then typematch_loop (Type_ t) targettypes
  else true.

(** The lookup of [capture]: from the check of the target name to
    [target := matches[0]], on the list that [st.Targets()] returned. *)
Definition capture (targets : list Target) (targetname : string)
    (targettypes : list string) (nodename : string)
  : lookup_error + Target :=
  if String.eqb targetname EmptyString then inl ErrEmptyName
  else
    let matches :=
      fold_left
        (fun matches t =>
           if String.eqb (Name t) targetname && typematch t targettypes
              && (String.eqb nodename EmptyString
                  || String.eqb (NodeName t) nodename)
           then (matches ++ [t])%list else matches)
        targets [] in
    if Nat.eqb (length matches) 0 then
      if String.eqb nodename EmptyString then inl (ErrNotFound targetname)
      else inl (ErrNotFoundOnNode targetname nodename)
    else if Nat.ltb 1 (length matches) then
      inl (ErrAmbiguous targetname (length matches))
    else
      match matches with
      | target :: _ => inr target
      | [] => inl (ErrNotFound targetname)
      end.

(** What a flag getter of pflag returns: the value and a nil error, or
    the zero value and an error. *)
Inductive flag (A : Type) :=
| FlagValue (a : A)
| FlagError.
Arguments FlagValue {A} a.
Arguments FlagError {A}.

Definition Get {A : Type} (zero : A) (f : flag A) : A * bool :=
  match f with
  | FlagValue a => (a, false)
  | FlagError => (zero, true)
  end.

(** The capture options [capture] builds from the flags [interface],
    [avoid-promiscuous] and [filter]. The second component of [Get] is
    [err != nil]. *)
Definition captureopts (interface : flag (list string))
    (avoid_promiscuous : flag bool) (filter : flag string)
  : csharg.CaptureOptions :=
  let opts := {| csharg.Nifs := []; csharg.Filter := EmptyString;
                 csharg.AvoidPromiscuousMode := false |} in
  let (nifs, err) := Get [] interface in
  let opts :=
    if negb err && Nat.ltb 0 (length nifs)
    then {| csharg.Nifs := nifs; csharg.Filter := csharg.Filter opts;
            csharg.AvoidPromiscuousMode := csharg.AvoidPromiscuousMode opts |}
    else opts in
  let opts :=
    {| csharg.Nifs := csharg.Nifs opts; csharg.Filter := csharg.Filter opts;
       csharg.AvoidPromiscuousMode := (Get false avoid_promiscuous).1 |} in
  let (filter, err) := Get EmptyString filter in
  if err && negb (String.eqb filter EmptyString)
  then {| csharg.Nifs := csharg.Nifs opts; csharg.Filter := filter;
          csharg.AvoidPromiscuousMode := csharg.AvoidPromiscuousMode opts |}
  else opts.

(** [RunE] of [PodCmd], [ContainerCmd] and [NetworkCmd]: the arguments
    they hand to [capture], or the panic of an index out of range.
    cobra has checked [ExactArgs(1)], [RangeArgs(1, 2)] and
    [ExactArgs(2)] before. *)
Definition index (args : list string) (i : nat) : pcapng.result string :=
  match args !! i with
  | Some a => pcapng.Ret a
  | None => pcapng.Panic pcapng.IndexRange
  end.

Definition ContainsRune (s : string) (r : ascii) : bool :=
  existsb (Ascii.eqb r) (list_ascii_of_string s).

Definition PodCmd_RunE (args : list string) (namespace : flag string)
  : pcapng.result (string * list string * string) :=
  let podnamespace := (Get EmptyString namespace).1 in
  podname ← index args 0;
  let podname :=
    if negb (ContainsRune podname "/")
    then podnamespace ++ "/" ++ podname else podname in
  pcapng.Ret (podname, ["pod"], EmptyString).

Definition ContainerCmd_RunE (args : list string) (host : flag string)
  : pcapng.result (string * list string * string) :=
  containername ← index args 0;
  let (standalonehost, err) := Get EmptyString host in
  nodename ← (if err || String.eqb standalonehost EmptyString
              then index args 1 else pcapng.Ret EmptyString);
  pcapng.Ret (containername, ["container"], nodename).

Definition NetworkCmd_RunE (args : list string)
  : pcapng.result (string * list string * string) :=
  containername ← index args 0;
  nodename ← index args 1;
  pcapng.Ret (containername, ["bindmount"; "proc"], nodename).

(** ** list (cli/command/list.go) *)





End command.

Section CommandFacts.
Import api command.
Local Open Scope string_scope.

(** A target that [capture] is asked for: by name, by type if types
    are given, where the type [container] stands for every type but
    [bindmount], [proc] and [pod], and by node if a node is given. *)
Definition wanted (targetname : string) (targettypes : list string)
    (nodename : string) (t : Target) : bool :=
  String.eqb (Name t) targetname
  && match targettypes with
     | [] => true
     | _ =>
         existsb
           (fun ty =>
              String.eqb (Type_ t) ty
              || String.eqb ty "container"
                 && negb (existsb (String.eqb (Type_ t))
                                  ["bindmount"; "proc"; "pod"]))
           targettypes
     end
  && (String.eqb nodename EmptyString || String.eqb (NodeName t) nodename).

Lemma typematch_loop_existsb ty targettypes :
  typematch_loop ty targettypes
  = existsb
      (fun ty' =>
         String.eqb ty ty'
         || String.eqb ty' "container"
            && negb (existsb (String.eqb ty) ["bindmount"; "proc"; "pod"]))
      targettypes.
Proof.
  set (E := existsb (String.eqb ty) ["bindmount"; "proc"; "pod"]).
  assert (HE : negb (String.eqb ty "bindmount") && negb (String.eqb ty "proc")
               && negb (String.eqb ty "pod") = negb E).
  { subst E. cbn [existsb].
    by destruct (String.eqb ty "bindmount"), (String.eqb ty "proc"),
      (String.eqb ty "pod"). }
  clearbody E.
  induction targettypes as [|ty' l IH]; [done|].
  cbn [typematch_loop existsb]. rewrite IH.
  destruct (String.eqb ty ty'); [done|].
  rewrite <- !andb_assoc, (andb_assoc (negb (String.eqb ty "bindmount"))), HE.
  cbn [orb]. by destruct (String.eqb ty' "container" && negb E).
Qed.

Lemma typematch_wanted t targettypes :
  typematch t targettypes
  = match targettypes with
    | [] => true
    | _ =>
        existsb
          (fun ty =>
             String.eqb (Type_ t) ty
             || String.eqb ty "container"
                && negb (existsb (String.eqb (Type_ t))
                                 ["bindmount"; "proc"; "pod"]))
          targettypes
    end.
Proof.
  unfold typematch. destruct targettypes as [|ty l]; [done|].
  cbn [length Nat.eqb negb]. apply typematch_loop_existsb.
Qed.

Lemma fold_left_append_filter {A : Type} (P : A -> bool) (l : list A) :
  forall acc,
    fold_left (fun acc x => if P x then (acc ++ [x])%list else acc) l acc
    = (acc ++ List.filter P l)%list.
Proof.
  induction l as [|x l IH]; intros acc; cbn [fold_left List.filter].
  - by rewrite app_nil_r.
  - rewrite IH. destruct (P x); [|done]. by rewrite <- app_assoc.
Qed.

(** The lookup of [capture]: it returns a target exactly when one
    single target of the list is wanted, and then this target; with
    none it reports not found, with several an ambiguity and their
    number. *)
Theorem capture_finds_the_single_match targets targetname targettypes
    nodename :
  targetname <> EmptyString ->
  capture targets targetname targettypes nodename
  = match List.filter (wanted targetname targettypes nodename) targets with
    | [] =>
        inl (if String.eqb nodename EmptyString
             then ErrNotFound targetname
             else ErrNotFoundOnNode targetname nodename)
    | [t] => inr t
    | l => inl (ErrAmbiguous targetname (length l))
    end.
Proof.
  intros Hn. unfold capture.
  apply String.eqb_neq in Hn. rewrite Hn.
  rewrite (fold_left_append_filter
             (fun t => String.eqb (Name t) targetname
                       && typematch t targettypes
                       && (String.eqb nodename EmptyString
                           || String.eqb (NodeName t) nodename))).
  cbn [app].
  erewrite (filter_ext _ (wanted targetname targettypes nodename)).
  2:{ intros t. unfold wanted. by rewrite typematch_wanted. }
  destruct (List.filter _ targets) as [|t [|t' l]]; cbn; try done.
  by destruct (String.eqb nodename EmptyString).
Qed.




(** The [filter] flag never reaches the capture options: its value is
    taken only when the getter fails, and then the value is empty. The
    interfaces and the promiscuous mode flag are taken as given. *)
Theorem captureopts_drops_filter interface avoid_promiscuous filter :
  csharg.Filter (captureopts interface avoid_promiscuous filter)
  = EmptyString
  /\ csharg.Nifs (captureopts interface avoid_promiscuous filter)
     = (Get [] interface).1
  /\ csharg.AvoidPromiscuousMode
       (captureopts interface avoid_promiscuous filter)
     = (Get false avoid_promiscuous).1.
Proof.
  unfold captureopts.
  destruct interface as [nifs|], filter as [f|]; cbn;
    try destruct nifs; try destruct (String.eqb f EmptyString); done.
Qed.

(** [capture container] with the container alone and no stand-alone host
    takes [args[1]], which is not there: it panics with an index out of
    range, although [RangeArgs(1, 2)] lets the single argument pass.
    With a stand-alone host given it looks on every node: a node
    argument is taken without complaint and not used. *)
Theorem ContainerCmd_node_argument containername :
  (forall host,
     host = FlagError \/ host = FlagValue EmptyString ->
     ContainerCmd_RunE [containername] host
     = pcapng.Panic pcapng.IndexRange)
  /\ (forall h rest,
        h <> EmptyString ->
        ContainerCmd_RunE (containername :: rest) (FlagValue h)
        = pcapng.Ret (containername, ["container"], EmptyString)).
Proof.
  split.
  - by intros host [-> | ->].
  - intros h rest Hh. unfold ContainerCmd_RunE. cbn.
    apply String.eqb_neq in Hh. by rewrite Hh.
Qed.








End CommandFacts.

Lemma capture_finds_the_single_match_witness :
  command.capture [web_pod; web_dind] "web" ["pod"%string] EmptyString
  = match List.filter (wanted "web" ["pod"%string] EmptyString)
                      [web_pod; web_dind] with
    | [] =>
        inl (if String.eqb EmptyString EmptyString
             then command.ErrNotFound "web"
             else command.ErrNotFoundOnNode "web" EmptyString)
    | [t] => inr t
    | l => inl (command.ErrAmbiguous "web" (length l))
    end.
Proof.
  apply (capture_finds_the_single_match [web_pod; web_dind] "web"
           ["pod"%string] EmptyString).
  discriminate.
Defined.

Lemma ContainerCmd_node_argument_witness :
  command.ContainerCmd_RunE ["db"%string] command.FlagError
  = pcapng.Panic pcapng.IndexRange
  /\ command.ContainerCmd_RunE ["db"%string; "n1"%string]
       (command.FlagValue "localhost:5001"%string)
     = pcapng.Ret ("db"%string, ["container"%string], EmptyString).
Proof.
  destruct (ContainerCmd_node_argument "db") as [Hpanic Hhost].
  split.
  - apply Hpanic. left. reflexivity.
  - apply Hhost. discriminate.
Defined.


(* ===================================================================== *)
(** * The client of a stand-alone host (hostclient.go)                    *)
(* ===================================================================== *)

Module hostclient.
Import api csharg.

(** [type hostsharktank struct], as far as the target of a capture
    depends on it: [hostn] is the host that [net.SplitHostPort] takes
    from [hc.hosturl.Host], empty when the URL has no port, and [cache]
    the target cache. *)
Record hostsharktank := {
  hostn : string;
  cache : TargetCache (Ptr := addr)
}.

(** What [NewSharkTankOnHost] returns: the cache is the zero value. *)
Definition NewSharkTankOnHost (hostn : string) : hostsharktank :=
  {| hostn := hostn; cache := zero |}.

(** A write through a pointer: the [t.NodeName = hostn] of [discover]
    is the one place in the client that changes a target in place. *)
Definition store (s : Store) (p : addr) (v : Target) : Store :=
  {| cells := fun a => if Nat.eqb a p then v else cells s a;
     next := next s |}.

Definition set_NodeName (t : Target) (n : string) : Target :=
  {| Name := Name t; Type_ := Type_ t; NetNS := NetNS t;
     NetworkInterfaces := NetworkInterfaces t; Prefix := Prefix t;
     StartTime := StartTime t; Pid := Pid t; NodeName := n;
     Cluster_ := Cluster_ t; CaptureService := CaptureService t;
     CapturePort := CapturePort t |}.

(** [json.NewDecoder(res.Body).Decode(&td)] allocates the targets of
    the answer, in their order. The answer is a list of objects: a
    [null] among them, which would decode to a nil pointer, is not
    modelled. *)
Fixpoint decode (s : Store) (answer : list Target) : Store * list addr :=
  match answer with
  | [] => (s, [])
  | t :: answer' =>
      let (s, p) := new s t in
      let (s, ps) := decode s answer' in
      (s, p :: ps)
  end.

(** [func needsTargetDiscovery(t *api.Target) bool]. *)
Definition needsTargetDiscovery (t : Target) : bool :=
  Nat.eqb (length (NetworkInterfaces t)) 0.

(** [func (hc *hostsharktank) discover() (ts api.Targets)]. [answer] is
    what the service sends: [None] when the request or the decoding
    fails, and the decoded list otherwise. *)
Definition discover (s : Store) (hc : hostsharktank)
    (answer : option (list Target)) : Store * hostsharktank * list addr :=
  if negb (IsEmpty (cache hc)) then (s, hc, Targets (cache hc))
  else
    match answer with
    | None => (s, hc, [])
    | Some answer =>
        let (s, targets) := decode s answer in
        let s :=
          fold_left (fun s t => store s t (set_NodeName (load s t) (hostn hc)))
                    targets s in
        (s, {| hostn := hostn hc;
               cache := Set_ (load s) (cache hc) targets |},
         targets)
    end.

(** [func (hc *hostsharktank) Capture(...)] for a non-nil [t], up to
    the point where the target of the request is settled: the outcome is
    the error that [Capture] returns there, or the target that the
    headers, the query and the stream are then built from. Dialling the
    service is not part of the model. *)
Definition Capture (s : Store) (hc : hostsharktank) (t : addr)
    (opts : option CaptureOptions) (answer : option (list Target))
  : Store * hostsharktank * outcome :=
  let opts :=
    match opts with
    | None => Some {| Nifs := []; Filter := EmptyString;
                      AvoidPromiscuousMode := false |}
    | Some o => Some o
    end in
  if IsEmpty (cache hc) && needsTargetDiscovery (load s t) then
    let '(s, hc, _) := discover s hc answer in
    let (s, r) := CompleteTarget s (Some t) opts (cache hc) in
    (s, hc, r)
  else (s, hc, Returned t).

(** The descriptor [&api.Target{Name: name, NodeName: nodename}]. *)
Definition container (name nodename : string) : Target :=
  {| Name := name; Type_ := EmptyString; NetNS := 0;
     NetworkInterfaces := []; Prefix := EmptyString; StartTime := 0;
     Pid := 0; NodeName := nodename; Cluster_ := None;
     CaptureService := EmptyString; CapturePort := 0 |}.

(** [func (hc *hostsharktank) CaptureContainer(...)]. *)
Definition CaptureContainer (s : Store) (hc : hostsharktank)
    (nodename name : string) (opts : option CaptureOptions)
    (answer : option (list Target)) : Store * hostsharktank * outcome :=
  let (s, t) := new s (container name nodename) in
  Capture s hc t opts answer.

(** [strings.Split(s, "/")]: the pieces of [s] between the slashes,
    one more than there are slashes. The slash is a single byte that
    occurs in no longer UTF-8 sequence, so that splitting the bytes is
    exact. *)
Fixpoint Split (s : string) : list string :=
  match s with
  | EmptyString => [EmptyString]
  | String c s' =>
      if Ascii.eqb c "/" then EmptyString :: Split s'
      else match Split s' with
           | p :: ps => String c p :: ps
           | [] => [String c EmptyString]
           end
  end.

(** The descriptor [&api.Target{Name: name, Type: "pod"}]. *)
Definition pod_target (name : string) : Target :=
  {| Name := name; Type_ := "pod"; NetNS := 0;
     NetworkInterfaces := []; Prefix := EmptyString; StartTime := 0;
     Pid := 0; NodeName := EmptyString; Cluster_ := None;
     CaptureService := EmptyString; CapturePort := 0 |}.

(** What [CapturePod] does: the error [invalid pod namespace/name: %q]
    of its own, or what [Capture] does. *)
Inductive pod_outcome :=
| InvalidPod (pod : string)
| Captured (r : outcome).

(** [func (hc *hostsharktank) CapturePod(...)]. *)
Definition CapturePod (s : Store) (hc : hostsharktank) (pod : string)
    (opts : option CaptureOptions) (answer : option (list Target))
  : Store * hostsharktank * pod_outcome :=
  let p := Split pod in
  let p :=
    match p with
    | [p0] => Some ["default"%string; p0]
    | [_; _] => Some p
    | _ => None
    end in
  match p with
  | None => (s, hc, InvalidPod pod)
  | Some p =>
      let (s, t) := new s (pod_target (Join p "/")) in
      let '(s, hc, r) := Capture s hc t opts answer in
      (s, hc, Captured r)
  end.

End hostclient.

Section HostClientFacts.
Import api csharg hostclient.
Local Open Scope nat_scope.

Lemma decode_spec answer : forall s,
  let (s', ps) := decode s answer in
  map (load s') ps = answer
  /\ next s' = next s + length answer
  /\ Forall (fun p => next s <= p) ps
  /\ forall a, a < next s -> load s' a = load s a.
Proof.
  induction answer as [|t answer IH]; intros s; cbn [decode].
  - repeat split; [cbn; lia|constructor].
  - pose proof (new_spec s t) as Hn.
    destruct (new s t) as [s1 p] eqn:En.
    destruct Hn as (Hp & Hv & Hf).
    assert (Hnext : next s1 = S (next s))
      by (unfold new in En; by injection En as <- _).
    specialize (IH s1). destruct (decode s1 answer) as [s2 ps].
    destruct IH as (Hm & Hx & Hge & Hfr).
    repeat split.
    + cbn [map]. rewrite Hm. f_equal.
      rewrite Hfr by lia. exact Hv.
    + cbn [length]. lia.
    + constructor; [lia|].
      eapply Forall_impl; [exact Hge|]. cbn. intros; lia.
    + intros a Ha. rewrite Hfr by lia. apply Hf. lia.
Qed.

Lemma rename_spec h ps : forall s,
  let s' := fold_left
              (fun s t => store s t (set_NodeName (load s t) h)) ps s in
  next s' = next s
  /\ forall a, load s' a
               = if existsb (Nat.eqb a) ps then set_NodeName (load s a) h
                 else load s a.
Proof.
  induction ps as [|p ps IH]; intros s; cbn [fold_left existsb].
  - by split.
  - specialize (IH (store s p (set_NodeName (load s p) h))).
    cbn zeta in IH. destruct IH as [Hn Hl].
    split; [by rewrite Hn|].
    intros a. rewrite Hl.
    change (load (store s p (set_NodeName (load s p) h)) a)
      with (if Nat.eqb a p then set_NodeName (load s p) h else load s a).
    destruct (Nat.eqb a p) eqn:E; cbn [orb]; [|done].
    apply Nat.eqb_eq in E as ->.
    by destruct (existsb (Nat.eqb p) ps).
Qed.

Lemma last_filter_map {A B : Type} (f : A -> B) (P : B -> bool) (l : list A) :
  f <$> last (List.filter (fun a => P (f a)) l)
  = last (List.filter P (map f l)).
Proof.
  assert (H : map f (List.filter (fun a => P (f a)) l)
              = List.filter P (map f l)).
  { induction l as [|a l IH]; [done|]. cbn [map List.filter].
    destruct (P (f a)); cbn [map]; by rewrite IH. }
  rewrite <- H. generalize (List.filter (fun a => P (f a)) l). clear.
  intros k. induction k as [|a [|b k] IH]; done.
Qed.


(** The heap and cache after the discovery of a fresh client: the
    targets of the answer stand at fresh addresses with the node name
    set, and everything that was there is as before. *)
Lemma discover_fresh s h answer :
  let '(s', hc', targets) :=
    discover s (NewSharkTankOnHost h) (Some answer) in
  map (load s') targets = map (fun t => set_NodeName t h) answer
  /\ Forall (fun p => next s <= p) targets
  /\ next s <= next s'
  /\ (forall a, a < next s -> load s' a = load s a)
  /\ hc' = {| hostn := h; cache := Set_ (load s') zero targets |}.
Proof.
  unfold discover, NewSharkTankOnHost. cbn [cache hostn IsEmpty zero ts
    length Nat.eqb negb].
  pose proof (decode_spec answer s) as Hd.
  destruct (decode s answer) as [s1 ps].
  destruct Hd as (Hm & Hx & Hge & Hfr).
  pose proof (rename_spec h ps s1) as Hr. cbn zeta in Hr.
  set (s2 := fold_left _ ps s1) in *.
  destruct Hr as [Hn Hl].
  repeat split.
  - rewrite <- Hm, map_map. apply map_ext_in. intros p Hp.
    rewrite Hl.
    replace (existsb (Nat.eqb p) ps) with true; [done|].
    symmetry. apply existsb_exists. exists p. split; [done|].
    apply Nat.eqb_refl.
  - exact Hge.
  - lia.
  - intros a Ha. rewrite Hl.
    replace (existsb (Nat.eqb a) ps) with false; [by apply Hfr|].
    symmetry. apply not_true_is_false. intros Hex.
    apply existsb_exists in Hex as (p & Hp & E).
    apply Nat.eqb_eq in E. subst p.
    pose proof (proj1 (List.Forall_forall _ _) Hge a Hp) as Hle.
    cbn beta in Hle. lia.
Qed.

(** After the first capture of a fresh client the cache holds as many
    targets as the answer had. *)
Lemma CaptureContainer_fresh_cache s h nodename name opts answer :
  let '(s', hc', r) :=
    CaptureContainer s (NewSharkTankOnHost h) nodename name opts
                     (Some answer) in
  IsEmpty (cache hc') = Nat.eqb (length answer) 0.
Proof.
  unfold CaptureContainer.
  pose proof (new_spec s (container name nodename)) as Hn.
  destruct (new s (container name nodename)) as [s0 t].
  destruct Hn as (Ht & Hv & Hf).
  unfold Capture. cbn zeta.
  replace (IsEmpty (cache (NewSharkTankOnHost h))) with true by done.
  replace (needsTargetDiscovery (load s0 t)) with true by (by rewrite Hv).
  cbn [andb].
  pose proof (discover_fresh s0 h answer) as Hd.
  destruct (discover s0 (NewSharkTankOnHost h) (Some answer))
    as [[s2 hc2] targets].
  destruct Hd as (Hm & _ & _ & _ & ->).
  destruct (CompleteTarget _ _ _ _) as [s3 r]. cbn [cache].
  unfold IsEmpty, Set_. cbn [ts].
  apply (f_equal length) in Hm. rewrite !length_map in Hm.
  by rewrite Hm.
Qed.

(** [CaptureContainer] on a fresh client, with a node name. The node
    name of every discovered target is the host of the URL, so the
    container is found only under this name; and the descriptor has no
    prefix, so only targets without prefix are found. What is found is
    the last such target of the answer, and it comes back as a fresh
    copy with the node name set, or as the routing error if its capture
    service is unsafe. Nothing that was on the heap is changed. *)
Theorem CaptureContainer_on_fresh_client s h nodename name opts answer :
  nodename <> EmptyString ->
  let '(s', hc', r) :=
    CaptureContainer s (NewSharkTankOnHost h) nodename name opts
                     (Some answer) in
  (forall a, a < next s -> load s' a = load s a)
  /\ IsEmpty (cache hc') = Nat.eqb (length answer) 0
  /\ match
       (if String.eqb h nodename
        then last (List.filter
                     (fun t => String.eqb (Prefix t) EmptyString
                               && String.eqb (Name t) name) answer)
        else None)
     with
     | None => r = Failed (ErrNonExisting (container name nodename))
     | Some t =>
         if ContainsAny (CaptureService t) "/?%"
         then r = Failed (ErrInvalidRouting (set_NodeName t h))
         else exists p, r = Returned p /\ next s < p
                        /\ load s' p = set_NodeName t h
     end.
Proof.
  intros Hnode. unfold CaptureContainer.
  pose proof (new_spec s (container name nodename)) as Hn.
  destruct (new s (container name nodename)) as [s0 t] eqn:En.
  destruct Hn as (Ht & Hv & Hf).
  assert (Hnext0 : next s0 = S (next s))
    by (unfold new in En; by injection En as <- _).
  unfold Capture. cbn zeta.
  replace (IsEmpty (cache (NewSharkTankOnHost h))) with true by done.
  replace (needsTargetDiscovery (load s0 t)) with true by (by rewrite Hv).
  cbn [andb].
  pose proof (discover_fresh s0 h answer) as Hd.
  destruct (discover s0 (NewSharkTankOnHost h) (Some answer))
    as [[s2 hc2] targets].
  destruct Hd as (Hm & Hge & Hx & Hfr & ->). cbn [cache].
  assert (Hd2 : load s2 t = container name nodename)
    by (rewrite Hfr by lia; exact Hv).
  unfold CompleteTarget. rewrite Hd2.
  cbn [CaptureService Type_ container NodeName Prefix Name].
  change (String.eqb EmptyString EmptyString) with true.
  change (String.eqb EmptyString "pod") with false. cbn match.
  unfold OnNode, Set_. cbn [index].
  rewrite Set_loop_node_key by done. rewrite lookup_empty.
  assert (Hfil : List.filter
                   (fun T => String.eqb (NodeName T) nodename
                             && String.eqb (Prefix T) EmptyString
                             && String.eqb (Name T) name)
                   (map (fun t => set_NodeName t h) answer)
                 = map (fun t => set_NodeName t h)
                     (if String.eqb h nodename
                      then List.filter
                             (fun t => String.eqb (Prefix t) EmptyString
                                       && String.eqb (Name t) name) answer
                      else [])).
  { clear. induction answer as [|a answer IH].
    - by destruct (String.eqb h nodename).
    - cbn [map List.filter]. rewrite IH.
      cbn [NodeName Prefix Name set_NodeName].
      destruct (String.eqb h nodename); cbn [andb]; [|done].
      by destruct (String.eqb (Prefix a) EmptyString
                   && String.eqb (Name a) name). }
  assert (Hl : load s2 <$> last (List.filter
                     (on_node (load s2) nodename EmptyString name) targets)
               = (fun t => set_NodeName t h) <$>
                 (if String.eqb h nodename
                  then last (List.filter
                     (fun t => String.eqb (Prefix t) EmptyString
                               && String.eqb (Name t) name) answer)
                  else None)).
  { etrans; [apply (last_filter_map (load s2)
                (fun T => String.eqb (NodeName T) nodename
                          && String.eqb (Prefix T) EmptyString
                          && String.eqb (Name T) name))|].
    rewrite Hm, Hfil.
    destruct (String.eqb h nodename); [|done].
    apply (fmap_last (fun t => set_NodeName t h)). }
  clear Hfil.
  assert (Hempty : IsEmpty (Set_ (load s2) zero targets)
                   = Nat.eqb (length answer) 0).
  { unfold IsEmpty, Set_. cbn [ts].
    apply (f_equal length) in Hm. rewrite !length_map in Hm.
    by rewrite Hm. }
  destruct (last (List.filter (on_node (load s2) nodename EmptyString name)
                              targets)) as [q|] eqn:Eq;
    destruct (if String.eqb h nodename
              then last (List.filter
                     (fun t => String.eqb (Prefix t) EmptyString
                               && String.eqb (Name t) name) answer)
              else None) as [T|]; try discriminate Hl.
  - injection Hl as HT.
    pose proof (new_spec s2 (load s2 q)) as Hn2.
    destruct (new s2 (load s2 q)) as [s3 p'] eqn:En2.
    destruct Hn2 as (Hp2 & Hv2 & Hf2).
    unfold check_routing. rewrite Hv2, HT.
    cbn [CaptureService set_NodeName].
    destruct (ContainsAny (CaptureService T) "/?%").
    + split; [|split; [exact Hempty|done]].
      intros a Ha. rewrite Hf2 by lia. rewrite Hfr by lia. apply Hf. lia.
    + split; [|split; [exact Hempty|]].
      * intros a Ha. rewrite Hf2 by lia. rewrite Hfr by lia. apply Hf. lia.
      * exists p'. repeat split; [lia|]. by rewrite Hv2, HT.
  - split; [|split; [exact Hempty|done]].
    intros a Ha. rewrite Hfr by lia. apply Hf. lia.
Qed.

(** Once the cache is filled, [Capture] completes nothing any more.
    After a first capture on a fresh client whose discovery found at
    least one target, and whatever that capture returned, a later
    [CaptureContainer] neither discovers nor looks its container up: it
    goes on with the bare descriptor, without network interfaces and
    without capture service, also for a container that does not exist.
    The cache stays as it is. *)
Theorem CaptureContainer_on_filled_cache
    s h nodename name opts answer nodename' name' opts' answer' :
  answer <> [] ->
  let '(s1, hc1, _) :=
    CaptureContainer s (NewSharkTankOnHost h) nodename name opts
                     (Some answer) in
  let '(s2, hc2, r2) :=
    CaptureContainer s1 hc1 nodename' name' opts' answer' in
  hc2 = hc1
  /\ (forall a, a < next s1 -> load s2 a = load s1 a)
  /\ exists p, r2 = Returned p /\ next s1 <= p
               /\ load s2 p = container name' nodename'.
Proof.
  intros Hne.
  pose proof (CaptureContainer_fresh_cache s h nodename name opts answer)
    as Hc.
  destruct (CaptureContainer s (NewSharkTankOnHost h) nodename name opts
              (Some answer)) as [[s1 hc1] r1].
  replace (Nat.eqb (length answer) 0) with false in Hc
    by (by destruct answer).
  unfold CaptureContainer.
  pose proof (new_spec s1 (container name' nodename')) as Hn.
  destruct (new s1 (container name' nodename')) as [s2 t].
  destruct Hn as (Ht & Hv & Hf).
  unfold Capture. cbn zeta. rewrite Hc. cbn [andb].
  split; [done|]. split.
  - intros a Ha. apply Hf. lia.
  - exists t. repeat split; [lia|done].
Qed.

Lemma Split_cons s : exists p ps, Split s = p :: ps.
Proof.
  destruct s as [|c s]; cbn [Split]; [by eauto|].
  destruct (Ascii.eqb c "/"); [by eauto|].
  destruct (Split s); by eauto.
Qed.

Lemma concat_cons2 sep x y (l : list string) :
  String.concat sep (x :: y :: l)
  = String.append x (String.append sep (String.concat sep (y :: l))).
Proof. reflexivity. Qed.

(** Joining the pieces with the slash gives the string back. *)
Lemma Join_Split s : Join (Split s) "/" = s.
Proof.
  unfold Join. induction s as [|c s IH]; [done|]. cbn [Split].
  destruct (Split_cons s) as (p & ps & E). rewrite E in IH |- *.
  destruct (Ascii.eqb_spec c "/") as [->|Hc].
  - rewrite concat_cons2, IH. reflexivity.
  - destruct ps as [|p' ps].
    + cbn [String.concat] in *. by rewrite IH.
    + rewrite concat_cons2 in *.
      change (String.append (String c p) ?y)
        with (String c (String.append p y)).
      by rewrite IH.
Qed.

Lemma filter_map_comm {A B} (f : A -> B) (P : B -> bool) l :
  map f (List.filter (fun a => P (f a)) l) = List.filter P (map f l).
Proof.
  induction l as [|a l IH]; [done|]. cbn [List.filter map].
  destruct (P (f a)); cbn [map]; by rewrite IH.
Qed.

(** [Capture] of a pod descriptor on a fresh client whose URL has a
    port. *)
Lemma Capture_pod_fresh s h q opts answer :
  h <> EmptyString ->
  let (s0, t) := new s (pod_target q) in
  let '(s', hc', r) :=
    Capture s0 (NewSharkTankOnHost h) t opts (Some answer) in
  (forall a, a < next s -> load s' a = load s a)
  /\ match List.filter
             (fun t => String.eqb (Prefix t) EmptyString
                       && String.eqb (Name t) q) answer
     with
     | [T] =>
         if String.eqb (Type_ T) "pod" then
           if ContainsAny (CaptureService T) "/?%"
           then r = Failed (ErrInvalidRouting (set_NodeName T h))
           else exists p, r = Returned p /\ next s < p
                          /\ load s' p = set_NodeName T h
         else r = Failed (ErrNonExisting (pod_target q))
     | _ => r = Failed (ErrNonExisting (pod_target q))
     end.
Proof.
  intros Hh.
  pose proof (new_spec s (pod_target q)) as Hn.
  destruct (new s (pod_target q)) as [s0 t] eqn:En.
  destruct Hn as (Ht & Hv & Hf).
  assert (Hnext0 : next s0 = S (next s))
    by (unfold new in En; by injection En as <- _).
  unfold Capture. cbn zeta.
  replace (IsEmpty (cache (NewSharkTankOnHost h))) with true by done.
  replace (needsTargetDiscovery (load s0 t)) with true by (by rewrite Hv).
  cbn [andb].
  pose proof (discover_fresh s0 h answer) as Hd.
  destruct (discover s0 (NewSharkTankOnHost h) (Some answer))
    as [[s2 hc2] targets].
  destruct Hd as (Hm & Hge & Hx & Hfr & ->). cbn [cache].
  assert (Hd2 : load s2 t = pod_target q)
    by (rewrite Hfr by lia; exact Hv).
  unfold CompleteTarget. rewrite Hd2.
  cbn [CaptureService Type_ pod_target NodeName Prefix Name].
  change (String.eqb EmptyString EmptyString) with true.
  change (String.eqb "pod" "pod") with true. cbn match.
  unfold Pod, Set_. cbn [index]. fold (pod_key q).
  rewrite Set_loop_pod_key.
  2:{ intros p Hp _.
      apply (in_map (load s2)) in Hp. rewrite Hm in Hp.
      apply in_map_iff in Hp as (T & <- & _). done. }
  rewrite lookup_empty. cbn [extend_entry].
  pose proof (filter_map_comm (load s2)
                (fun T => String.eqb (Prefix T) EmptyString
                          && String.eqb (Name T) q) targets) as Hfl.
  rewrite Hm in Hfl.
  rewrite <- (filter_map_comm (fun t => set_NodeName t h)
                (fun T => String.eqb (Prefix T) EmptyString
                          && String.eqb (Name T) q) answer) in Hfl.
  cbn [Prefix Name set_NodeName] in Hfl.
  fold (is_candidate (load s2) q) in Hfl.
  destruct (List.filter (is_candidate (load s2) q) targets)
    as [|q0 [|q1 qs]];
    destruct (List.filter _ answer) as [|T [|T1 Ts]];
    try discriminate Hfl; cbn [entry_of map app].
  - split; [|done]. intros a Ha. rewrite Hfr by lia. apply Hf. lia.
  - injection Hfl as HT. rewrite HT. cbn [Type_ set_NodeName].
    destruct (String.eqb (Type_ T) "pod") eqn:ET;
      cbn -[new check_routing load].
    + rewrite HT. cbn [Type_ set_NodeName]. rewrite ET.
      pose proof (new_spec s2 (load s2 q0)) as Hn2.
      destruct (new s2 (load s2 q0)) as [s3 p'] eqn:En2.
      destruct Hn2 as (Hp2 & Hv2 & Hf2).
      unfold check_routing. rewrite Hv2, HT.
      cbn [CaptureService set_NodeName].
      destruct (ContainsAny (CaptureService T) "/?%").
      * split; [|done].
        intros a Ha. rewrite Hf2 by lia. rewrite Hfr by lia. apply Hf. lia.
      * split.
        -- intros a Ha. rewrite Hf2 by lia. rewrite Hfr by lia.
           apply Hf. lia.
        -- exists p'. repeat split; [lia|]. by rewrite Hv2, HT.
    + split; [|done]. intros a Ha. rewrite Hfr by lia. apply Hf. lia.
  - destruct (String.eqb (Type_ (load s2 q0)) "pod");
      cbn -[new check_routing load]; (split; [|done]);
      intros a Ha; rewrite Hfr by lia; apply Hf; lia.
Qed.

(** [CapturePod] on a fresh client whose URL has a port. A pod name
    with two or more slashes is refused before anything is discovered;
    a name without slash is looked up in the namespace default, and a
    name with one slash as it is. The pod is found when exactly one
    target of the answer has this name and no prefix, and this target
    is of type pod; it comes back as a fresh copy with the node name
    set, or as the routing error if its capture service is unsafe.
    Nothing that was on the heap is changed. *)
Theorem CapturePod_on_fresh_client s h pod opts answer :
  h <> EmptyString ->
  let '(s', hc', r) :=
    CapturePod s (NewSharkTankOnHost h) pod opts (Some answer) in
  (forall a, a < next s -> load s' a = load s a)
  /\ match length (Split pod) with
     | 1 | 2 =>
         let q := if Nat.eqb (length (Split pod)) 1
                  then ("default/" ++ pod)%string else pod in
         match List.filter
                 (fun t => String.eqb (Prefix t) EmptyString
                           && String.eqb (Name t) q) answer
         with
         | [T] =>
             if String.eqb (Type_ T) "pod" then
               if ContainsAny (CaptureService T) "/?%"
               then r = Captured
                          (Failed (ErrInvalidRouting (set_NodeName T h)))
               else exists p, r = Captured (Returned p) /\ next s < p
                              /\ load s' p = set_NodeName T h
             else r = Captured (Failed (ErrNonExisting (pod_target q)))
         | _ => r = Captured (Failed (ErrNonExisting (pod_target q)))
         end
     | _ => r = InvalidPod pod /\ s' = s /\ hc' = NewSharkTankOnHost h
     end.
Proof.
  intros Hh. unfold CapturePod.
  pose proof (Join_Split pod) as HJ.
  destruct (Split pod) as [|p0 [|p1 [|p2 ps]]] eqn:ES; cbn [length].
  - done.
  - cbn [Nat.eqb]. cbv zeta.
    replace (Join ["default"%string; p0] "/") with ("default/" ++ pod)%string
      by (unfold Join in *; cbn [String.concat] in *; by rewrite HJ).
    pose proof (Capture_pod_fresh s h ("default/" ++ pod) opts answer Hh)
      as HC.
    destruct (new s (pod_target ("default/" ++ pod))) as [s0 t].
    destruct (Capture s0 (NewSharkTankOnHost h) t opts (Some answer))
      as [[s' hc'] r].
    destruct HC as [Hpre HC]. split; [exact Hpre|].
    destruct (List.filter _ answer) as [|T [|T1 Ts]]; [by subst| |by subst].
    destruct (String.eqb (Type_ T) "pod"); [|by subst].
    destruct (ContainsAny (CaptureService T) "/?%"); [by subst|].
    destruct HC as (p & -> & Hp). by exists p.
  - cbn [Nat.eqb]. cbv zeta. rewrite HJ.
    pose proof (Capture_pod_fresh s h pod opts answer Hh) as HC.
    destruct (new s (pod_target pod)) as [s0 t].
    destruct (Capture s0 (NewSharkTankOnHost h) t opts (Some answer))
      as [[s' hc'] r].
    destruct HC as [Hpre HC]. split; [exact Hpre|].
    destruct (List.filter _ answer) as [|T [|T1 Ts]]; [by subst| |by subst].
    destruct (String.eqb (Type_ T) "pod"); [|by subst].
    destruct (ContainsAny (CaptureService T) "/?%"); [by subst|].
    destruct HC as (p & -> & Hp). by exists p.
  - done.
Qed.

End HostClientFacts.

(** A heap on which nothing is allocated yet, and the answer of a host
    with the containers web and db. *)
Definition empty_heap : csharg.Store :=
  {| csharg.cells := fun _ => hostclient.container EmptyString EmptyString;
     csharg.next := 0%nat |}.

Definition answer_web_db : list api.Target :=
  [ {| api.Name := "web"; api.Type_ := "docker"; api.NetNS := 4026532100;
       api.NetworkInterfaces := ["lo"%string; "eth0"%string];
       api.Prefix := EmptyString; api.StartTime := 10; api.Pid := 41;
       api.NodeName := EmptyString; api.Cluster_ := None;
       api.CaptureService := EmptyString; api.CapturePort := 0 |};
    {| api.Name := "db"; api.Type_ := "docker"; api.NetNS := 4026532101;
       api.NetworkInterfaces := ["lo"%string];
       api.Prefix := EmptyString; api.StartTime := 20; api.Pid := 42;
       api.NodeName := EmptyString; api.Cluster_ := None;
       api.CaptureService := EmptyString; api.CapturePort := 0 |} ].

Lemma CaptureContainer_on_fresh_client_witness :
  let '(s', hc', r) :=
    hostclient.CaptureContainer empty_heap (hostclient.NewSharkTankOnHost "box")
      "box" "db" None (Some answer_web_db) in
  (forall a, (a < csharg.next empty_heap)%nat
             -> csharg.load s' a = csharg.load empty_heap a)
  /\ csharg.IsEmpty (hostclient.cache hc')
     = Nat.eqb (length answer_web_db) 0
  /\ match
       (if String.eqb "box" "box"
        then last (List.filter
                     (fun t => String.eqb (api.Prefix t) EmptyString
                               && String.eqb (api.Name t) "db")
                     answer_web_db)
        else None)
     with
     | None =>
         r = csharg.Failed
               (csharg.ErrNonExisting (hostclient.container "db" "box"))
     | Some t =>
         if csharg.ContainsAny (api.CaptureService t) "/?%"
         then r = csharg.Failed
                    (csharg.ErrInvalidRouting (hostclient.set_NodeName t "box"))
         else exists p, r = csharg.Returned p
                        /\ (csharg.next empty_heap < p)%nat
                        /\ csharg.load s' p = hostclient.set_NodeName t "box"
     end.
Proof.
  apply (CaptureContainer_on_fresh_client empty_heap "box" "box" "db" None
           answer_web_db).
  discriminate.
Defined.

Lemma CaptureContainer_on_filled_cache_witness :
  let '(s1, hc1, _) :=
    hostclient.CaptureContainer empty_heap (hostclient.NewSharkTankOnHost "box")
      "box" "db" None (Some answer_web_db) in
  let '(s2, hc2, r2) :=
    hostclient.CaptureContainer s1 hc1 "box" "nothing" None None in
  hc2 = hc1
  /\ (forall a, (a < csharg.next s1)%nat
                -> csharg.load s2 a = csharg.load s1 a)
  /\ exists p, r2 = csharg.Returned p /\ (csharg.next s1 <= p)%nat
               /\ csharg.load s2 p = hostclient.container "nothing" "box".
Proof.
  apply (CaptureContainer_on_filled_cache empty_heap "box" "box" "db" None
           answer_web_db "box" "nothing" None None).
  discriminate.
Defined.

(** The answer of a host that runs a pod web in the namespace default,
    besides a container of the same name under the prefix dind. *)
Definition answer_pod_web : list api.Target :=
  [ {| api.Name := "default/web"; api.Type_ := "pod";
       api.NetNS := 4026532200;
       api.NetworkInterfaces := ["lo"%string; "eth0"%string];
       api.Prefix := EmptyString; api.StartTime := 30; api.Pid := 51;
       api.NodeName := EmptyString; api.Cluster_ := None;
       api.CaptureService := EmptyString; api.CapturePort := 0 |};
    {| api.Name := "default/web"; api.Type_ := "docker";
       api.NetNS := 4026532201;
       api.NetworkInterfaces := ["lo"%string];
       api.Prefix := "dind"; api.StartTime := 40; api.Pid := 52;
       api.NodeName := EmptyString; api.Cluster_ := None;
       api.CaptureService := EmptyString; api.CapturePort := 0 |} ].

Lemma CapturePod_on_fresh_client_witness :
  let '(s', hc', r) :=
    hostclient.CapturePod empty_heap (hostclient.NewSharkTankOnHost "box")
      "web" None (Some answer_pod_web) in
  (forall a, (a < csharg.next empty_heap)%nat
             -> csharg.load s' a = csharg.load empty_heap a)
  /\ match length (hostclient.Split "web") with
     | 1%nat | 2%nat =>
         let q := if Nat.eqb (length (hostclient.Split "web")) 1
                  then ("default/" ++ "web")%string else "web"%string in
         match List.filter
                 (fun t => String.eqb (api.Prefix t) EmptyString
                           && String.eqb (api.Name t) q) answer_pod_web
         with
         | [T] =>
             if String.eqb (api.Type_ T) "pod" then
               if csharg.ContainsAny (api.CaptureService T) "/?%"
               then r = hostclient.Captured
                          (csharg.Failed
                             (csharg.ErrInvalidRouting
                                (hostclient.set_NodeName T "box")))
               else exists p, r = hostclient.Captured (csharg.Returned p)
                              /\ (csharg.next empty_heap < p)%nat
                              /\ csharg.load s' p
                                 = hostclient.set_NodeName T "box"
             else r = hostclient.Captured
                        (csharg.Failed
                           (csharg.ErrNonExisting (hostclient.pod_target q)))
         | _ => r = hostclient.Captured
                      (csharg.Failed
                         (csharg.ErrNonExisting (hostclient.pod_target q)))
         end
     | _ => r = hostclient.InvalidPod "web" /\ s' = empty_heap
            /\ hc' = hostclient.NewSharkTankOnHost "box"
     end.
Proof.
  apply (CapturePod_on_fresh_client empty_heap "box" "web" None answer_pod_web).
  discriminate.
Defined.
